(** * Constraint solver for workout prescription: model and properties

    A shallow embedding of [apps/api/native/src/constraint-solver.c]:
    the hard filters, the scoring function, the time estimate, the greedy
    selection loop and the entry points exported to JavaScript.

    Conventions.
    - [int32_t] values are integers of [Z]; every arithmetic operation
      that can leave the 32-bit range is reduced with [wrap32]
      (two's complement).
    - [float] values are IEEE-754 binary32 numbers, as [spec_float] with
      precision 24 and maximal exponent 128; JavaScript numbers are
      binary64 numbers (precision 53, maximal exponent 1024).
    - C arrays are lists; JavaScript objects are finite maps from
      property names to values.
    - A shift [1 << k] takes its count modulo 32, as the shift
      instruction of the compiled code does; C leaves it undefined for
      a count outside 0..31.
    - Where the source reads what nothing has set (a local declared
      without a value, a handle that a failed N-API call has left
      unset, a word before an array), the definition says which value
      it takes, and the statements keep to the inputs for which the
      code sets what it reads. *)

From Stdlib Require Import ZArith Lia SpecFloat QArith Qround Permutation Sorted.
From stdpp Require Import gmap strings list.

#[local] Set Warnings "-register-all".
#[local] Open Scope Z_scope.

(** ** 32-bit integers *)

Module Int32.

Definition INT_MIN : Z := -2147483648.
Definition INT_MAX : Z := 2147483647.

Definition in_range (z : Z) : Prop := INT_MIN <= z <= INT_MAX.

Definition in_rangeb (z : Z) : bool := (INT_MIN <=? z) && (z <=? INT_MAX).

(** Reduction of an integer to its 32-bit two's complement value. *)
Definition wrap32 (z : Z) : Z := (z + 2 ^ 31) mod 2 ^ 32 - 2 ^ 31.

Definition add32 (a b : Z) : Z := wrap32 (a + b).
Definition sub32 (a b : Z) : Z := wrap32 (a - b).
Definition mul32 (a b : Z) : Z := wrap32 (a * b).

(** [a << k].  C leaves the shift undefined for a count that is
    negative or at least 32; the shift instruction that the compiler
    emits for it takes the low five bits of the count, and the model
    does the same: the count is [k mod 32].  The result is reduced to
    32 bits, so [1 << 31] is [INT_MIN]. *)
Definition shl32 (a k : Z) : Z := wrap32 (Z.shiftl a (k mod 32)).

(** [a / b] and [a % b] of C truncate towards zero. *)
Definition div32 (a b : Z) : Z := Z.quot a b.
Definition rem32 (a b : Z) : Z := Z.rem a b.

(** [mask & (1 << k)] read as a C condition: it tests bit [k mod 32]
    of the mask. *)
Definition has_bit (mask k : Z) : bool :=
  negb (Z.land mask (shl32 1 k) =? 0).

(** Read of [arr[i]] for an index inside the array.  A read outside
    of it has no meaning in C; the function is 0 there, and the
    statements that depend on the word read keep the index inside. *)
Definition arr_get (arr : list Z) (i : Z) : Z :=
  if i <? 0 then 0 else default 0 (arr !! Z.to_nat i).

(** Bit [k] of a 32-bit mask, for the statements. *)
Definition bit_set (mask k : Z) : Prop :=
  0 <= k < 32 /\ Z.testbit mask k = true.

(** The bit that [mask & (1 << k)] tests, for any count [k]. *)
Definition tested_bit (mask k : Z) : Prop :=
  Z.testbit mask (k mod 32) = true.

End Int32.

Import Int32.

(** ** Single-precision numbers *)

Module Float32.

Definition float32 : Type := spec_float.

Definition prec : Z := 24.
Definition emax : Z := 128.

Definition fadd : float32 -> float32 -> float32 := SFadd prec emax.
Definition fsub : float32 -> float32 -> float32 := SFsub prec emax.
Definition fmul : float32 -> float32 -> float32 := SFmul prec emax.

(** [a > b] and [a < b]; both are false when an operand is NaN. *)
Definition fgt (a b : float32) : bool := SFltb b a.
Definition flt (a b : float32) : bool := SFltb a b.
Definition fle (a b : float32) : bool := SFleb a b.

(** [(float)z] for an [int32_t] z, rounded to nearest even. *)
Definition of_int (z : Z) : float32 := binary_normalize prec emax z 0 false.

Definition zero : float32 := S754_zero false.
Definition half : float32 := S754_finite false 8388608 (-24).
Definition one_and_half : float32 := S754_finite false 12582912 (-23).
Definition six_tenths : float32 := S754_finite false 10066330 (-24).
Definition three_quarters : float32 := S754_finite false 12582912 (-24).

(** Integer part of a finite number, towards zero. *)
Definition truncate (x : spec_float) : option Z :=
  match x with
  | S754_zero _ => Some 0
  | S754_finite s m e =>
      let mag := if 0 <=? e then Z.pos m * 2 ^ e else Z.pos m / 2 ^ (- e) in
      Some (if s then - mag else mag)
  | S754_infinity _ | S754_nan => None
  end.

(** [(int32_t)x].  A value that has no [int32_t] (NaN, an infinity, or
    an integer part out of range) is undefined in C; the model gives
    what the SSE conversion gives, [INT_MIN]. *)
Definition to_int (x : float32) : Z :=
  match truncate x with
  | Some z => if in_rangeb z then z else INT_MIN
  | None => INT_MIN
  end.

(** [(float)d] for a double [d]. *)
Definition of_double (d : spec_float) : float32 :=
  match d with
  | S754_finite s m e => binary_normalize prec emax (if s then Z.neg m else Z.pos m) e s
  | _ => d
  end.

(** The rational value of a finite number. *)
Definition to_Q (x : spec_float) : option Q :=
  match x with
  | S754_zero _ => Some (0 # 1)%Q
  | S754_finite s m e =>
      let n := if s then Z.neg m else Z.pos m in
      Some (if 0 <=? e then (n * 2 ^ e) # 1 else n # (Z.to_pos (2 ^ (- e))))%Q
  | S754_infinity _ | S754_nan => None
  end.

End Float32.

Import Float32.

(** ** Data structures *)

Definition MAX_EXERCISES : Z := 500.
Definition MAX_MUSCLES : Z := 50.

Record ScoringWeights := {
  goal_alignment : float32;
  compound_preference : float32;
  recovery_penalty_24h : float32;
  recovery_penalty_48h : float32;
  fitness_level_match : float32;
  muscle_coverage_gap : float32
}.

Record Exercise := {
  id : Z;
  difficulty : Z;
  is_compound : Z;
  movement_pattern : Z;
  estimated_seconds : Z;
  rest_seconds : Z;
  activations : list float32;
  primary_muscles_mask : Z;
  locations_mask : Z;
  equipment_required_mask : Z
}.

Record SolverRequest := {
  time_available_seconds : Z;
  location : Z;
  equipment_mask : Z;
  goals_mask : Z;
  fitness_level : Z;
  excluded_exercises_mask : list Z;
  excluded_muscles_mask : Z;
  recent_24h_muscles_mask : Z;
  recent_48h_muscles_mask : Z;
  weights : ScoringWeights
}.

Record ScoredExercise := {
  index : Z;
  score : float32
}.

(** [ex->activations[i]] for [0 <= i < MAX_MUSCLES]. *)
Definition activation (ex : Exercise) (i : Z) : float32 :=
  default zero (activations ex !! Z.to_nat i).

(** The values of the C types. *)
Definition wf_exercise (ex : Exercise) : Prop :=
  in_range (id ex) /\ in_range (difficulty ex) /\ in_range (is_compound ex) /\
  in_range (movement_pattern ex) /\ in_range (estimated_seconds ex) /\
  in_range (rest_seconds ex) /\
  length (activations ex) = Z.to_nat MAX_MUSCLES /\
  in_range (primary_muscles_mask ex) /\ in_range (locations_mask ex) /\
  in_range (equipment_required_mask ex).

Definition wf_request (req : SolverRequest) : Prop :=
  in_range (time_available_seconds req) /\ in_range (location req) /\
  in_range (equipment_mask req) /\ in_range (goals_mask req) /\
  in_range (fitness_level req) /\
  length (excluded_exercises_mask req) = 16%nat /\
  Forall in_range (excluded_exercises_mask req) /\
  in_range (excluded_muscles_mask req) /\
  in_range (recent_24h_muscles_mask req) /\
  in_range (recent_48h_muscles_mask req).

(** ** Hard filters *)

Definition forty : float32 := of_int 40.

(** The loop over the muscles of [passes_hard_filters]: some excluded
    muscle is activated above 40 percent. *)
Definition excluded_muscle_activated (ex : Exercise) (req : SolverRequest) : bool :=
  existsb
    (fun i => has_bit (excluded_muscles_mask req) i && fgt (activation ex i) forty)
    (seqZ 0 MAX_MUSCLES).

(** The excluded-exercises lookup of [passes_hard_filters].  The
    division truncates towards zero: an id from -31 to -1 has bucket 0
    and a negative bit count, and an id of -32 or less has a negative
    bucket, for which the read falls before the array. *)
Definition exercise_excluded (ex : Exercise) (req : SolverRequest) : bool :=
  let bucket := div32 (id ex) 32 in
  let bit := rem32 (id ex) 32 in
  (bucket <? 16) && has_bit (arr_get (excluded_exercises_mask req) bucket) bit.

Definition passes_hard_filters (ex : Exercise) (req : SolverRequest) : bool :=
  if negb (has_bit (locations_mask ex) (location req)) then false
  else if negb (location req =? 0)
          && negb (Z.land (equipment_required_mask ex) (Z.lnot (equipment_mask req)) =? 0)
  then false
  else if exercise_excluded ex req then false
  else if negb (Z.land (primary_muscles_mask ex) (excluded_muscles_mask req) =? 0)
  then false
  else if excluded_muscle_activated ex req then false
  else true.

(** ** Scoring *)

Definition PATTERN_PUSH : Z := 0.
Definition PATTERN_PULL : Z := 1.
Definition PATTERN_SQUAT : Z := 2.
Definition PATTERN_HINGE : Z := 3.
Definition PATTERN_CARRY : Z := 4.
Definition PATTERN_CORE : Z := 5.
Definition PATTERN_ISOLATION : Z := 6.

Definition GOAL_STRENGTH : Z := 0.
Definition GOAL_HYPERTROPHY : Z := 1.
Definition GOAL_ENDURANCE : Z := 2.
Definition GOAL_MOBILITY : Z := 3.
Definition GOAL_FAT_LOSS : Z := 4.

Definition DIFFICULTY_MIN : list Z := [1; 2; 3].
Definition DIFFICULTY_MAX : list Z := [2; 3; 5].

Definition pattern_set (ps : list Z) : Z :=
  fold_right (fun p acc => Z.lor (shl32 1 p) acc) 0 ps.

Definition GOAL_PREFERRED_PATTERNS : list Z :=
  [ pattern_set [PATTERN_SQUAT; PATTERN_HINGE; PATTERN_PUSH; PATTERN_PULL];
    pattern_set [PATTERN_PUSH; PATTERN_PULL; PATTERN_SQUAT; PATTERN_HINGE];
    pattern_set [PATTERN_PUSH; PATTERN_PULL; PATTERN_SQUAT; PATTERN_CORE];
    pattern_set [PATTERN_CORE; PATTERN_HINGE; PATTERN_SQUAT];
    pattern_set [PATTERN_SQUAT; PATTERN_HINGE; PATTERN_PUSH; PATTERN_PULL] ].

Definition GOAL_PREFER_COMPOUND : list Z := [1; 1; 0; 0; 1].

Definition five : float32 := of_int 5.

(** One iteration of the goal loop of [score_exercise]. *)
Definition score_goal (ex : Exercise) (req : SolverRequest)
    (score : float32) (goal : Z) : float32 :=
  if has_bit (goals_mask req) goal then
    let score :=
      if has_bit (arr_get GOAL_PREFERRED_PATTERNS goal) (movement_pattern ex)
      then fadd score (goal_alignment (weights req)) else score in
    if negb (arr_get GOAL_PREFER_COMPOUND goal =? 0) && negb (is_compound ex =? 0)
    then fadd score (fmul (goal_alignment (weights req)) half) else score
  else score.

(** One iteration of the recovery loop. *)
Definition score_recovery (ex : Exercise) (req : SolverRequest)
    (score : float32) (i : Z) : float32 :=
  if fgt (activation ex i) zero then
    if has_bit (recent_24h_muscles_mask req) i
    then fadd score (recovery_penalty_24h (weights req))
    else if has_bit (recent_48h_muscles_mask req) i
    then fadd score (recovery_penalty_48h (weights req))
    else score
  else score.

(** One iteration of the coverage loop. *)
Definition score_coverage (ex : Exercise) (req : SolverRequest)
    (current_coverage_mask : Z) (score : float32) (i : Z) : float32 :=
  if fgt (activation ex i) zero && negb (has_bit current_coverage_mask i)
  then fadd score (muscle_coverage_gap (weights req)) else score.

Definition score_exercise (ex : Exercise) (req : SolverRequest)
    (current_coverage_mask : Z) : float32 :=
  let score := zero in
  let score :=
    if negb (goals_mask req =? 0)
    then fold_left (score_goal ex req) (seqZ 0 5) score else score in
  let score :=
    if negb (is_compound ex =? 0)
    then fadd score (compound_preference (weights req)) else score in
  let score := fold_left (score_recovery ex req) (seqZ 0 MAX_MUSCLES) score in
  let score :=
    if (0 <=? fitness_level req) && (fitness_level req <=? 2) then
      let min_diff := arr_get DIFFICULTY_MIN (fitness_level req) in
      let max_diff := arr_get DIFFICULTY_MAX (fitness_level req) in
      let score :=
        if (min_diff <=? difficulty ex) && (difficulty ex <=? max_diff)
        then fadd score (fitness_level_match (weights req)) else score in
      if max_diff <? difficulty ex
      then fsub score (fmul (of_int (sub32 (difficulty ex) max_diff)) five)
      else score
    else score in
  fold_left (score_coverage ex req current_coverage_mask) (seqZ 0 MAX_MUSCLES) score.

(** The comparator handed to [qsort]: descending scores. *)
Definition compare_scores (a b : ScoredExercise) : Z :=
  let diff := fsub (score b) (score a) in
  if fgt diff zero then 1 else if flt diff zero then -1 else 0.

(** ** Time estimate *)

Definition estimate_time (ex : Exercise) (sets reps : Z) (rest_multiplier : float32) : Z :=
  let rep_duration := 3 in
  let rep_time := mul32 reps rep_duration in
  let rest_time := to_int (fmul (of_int (rest_seconds ex)) rest_multiplier) in
  let setup_time := if negb (equipment_required_mask ex =? 0) then 30 else 0 in
  add32 (add32 setup_time (mul32 sets rep_time)) (mul32 (sub32 sets 1) rest_time).

(** The specification's reading of the rest time: the nearest integer
    (halves away from zero). *)
Definition round_nearest (x : spec_float) : option Z :=
  match x with
  | S754_zero _ => Some 0
  | S754_finite s m e =>
      let mag :=
        if 0 <=? e then Z.pos m * 2 ^ e
        else (2 * Z.pos m + 2 ^ (- e)) / (2 * 2 ^ (- e)) in
      Some (if s then - mag else mag)
  | S754_infinity _ | S754_nan => None
  end.

(** ** The solver *)

(** A static array starts zeroed. *)
Definition zero_exercise : Exercise :=
  {| id := 0; difficulty := 0; is_compound := 0; movement_pattern := 0;
     estimated_seconds := 0; rest_seconds := 0;
     activations := replicate (Z.to_nat MAX_MUSCLES) zero;
     primary_muscles_mask := 0; locations_mask := 0;
     equipment_required_mask := 0 |}.

(** The global exercise cache: the static array, the number of entries
    in use, and the flag set by the first load. *)
Record Globals := {
  g_exercises : list Exercise;
  g_exercise_count : Z;
  g_initialized : Z
}.

Definition initial_globals : Globals :=
  {| g_exercises := replicate (Z.to_nat MAX_EXERCISES) zero_exercise;
     g_exercise_count := 0;
     g_initialized := 0 |}.

(** [g_exercises[idx]]. *)
Definition exercise_at (g : Globals) (idx : Z) : Exercise :=
  if idx <? 0 then zero_exercise
  else default zero_exercise (g_exercises g !! Z.to_nat idx).

(** The indices that pass the hard filters, in ascending order. *)
Definition valid_indices (g : Globals) (req : SolverRequest) : list Z :=
  List.filter (fun i => passes_hard_filters (exercise_at g i) req)
    (seqZ 0 (g_exercise_count g)).

Definition warmup_cooldown (req : SolverRequest) : Z :=
  if 1800 <=? time_available_seconds req then 300 else 120.

Definition rest_multiplier_of (req : SolverRequest) : float32 :=
  if has_bit (goals_mask req) GOAL_STRENGTH then one_and_half
  else if has_bit (goals_mask req) GOAL_ENDURANCE then half
  else if has_bit (goals_mask req) GOAL_FAT_LOSS then six_tenths
  else if has_bit (goals_mask req) GOAL_MOBILITY then three_quarters
  else of_int 1.

(** [(base_sets, base_reps)]. *)
Definition base_sets_reps (req : SolverRequest) : Z * Z :=
  if has_bit (goals_mask req) GOAL_STRENGTH then (5, 4)
  else if has_bit (goals_mask req) GOAL_HYPERTROPHY then (4, 10)
  else if has_bit (goals_mask req) GOAL_ENDURANCE then (2, 20)
  else if has_bit (goals_mask req) GOAL_FAT_LOSS then (3, 14)
  else (3, 10).

(** The local variables of [solve] that change in the selection loop,
    with the three output arrays up to [result_count]. *)
Record SolveState := {
  selected_mask : list Z;
  coverage_mask : Z;
  result_count : Z;
  time_remaining : Z;
  out_indices : list Z;
  out_sets : list Z;
  out_reps : list Z
}.

Definition is_selected (mask : list Z) (idx : Z) : bool :=
  has_bit (arr_get mask (div32 idx 32)) (rem32 idx 32).

(** [selected_mask[idx / 32] |= 1 << (idx % 32)]. *)
Definition mark_selected (mask : list Z) (idx : Z) : list Z :=
  let bucket := div32 idx 32 in
  let bit := rem32 idx 32 in
  <[Z.to_nat bucket := Z.lor (arr_get mask bucket) (shl32 1 bit)]> mask.

(** The coverage update of a selection. *)
Definition cover (ex : Exercise) (coverage : Z) : Z :=
  fold_left
    (fun cov m => if fgt (activation ex m) zero then Z.lor cov (shl32 1 m) else cov)
    (seqZ 0 MAX_MUSCLES) coverage.

Definition solve_init (req : SolverRequest) : SolveState :=
  {| selected_mask := replicate 16 0;
     coverage_mask := 0;
     result_count := 0;
     time_remaining := sub32 (time_available_seconds req) (warmup_cooldown req);
     out_indices := [];
     out_sets := [];
     out_reps := [] |}.

Section Solver.

(** [qsort] of the C library, of which the standard fixes only that it
    permutes the array. *)
Variable qsort :
  (ScoredExercise -> ScoredExercise -> Z) -> list ScoredExercise -> list ScoredExercise.
Hypothesis qsort_permutes : forall cmp l, Permutation (qsort cmp l) l.

Variable g : Globals.
Variable req : SolverRequest.
Variable max_results : Z.

Definition time_needed (idx : Z) : Z :=
  estimate_time (exercise_at g idx)
    (fst (base_sets_reps req)) (snd (base_sets_reps req)) (rest_multiplier_of req).

(** The scoring pass of a round: the valid exercises not selected yet. *)
Definition score_remaining (s : SolveState) : list ScoredExercise :=
  map (fun idx =>
         {| index := idx;
            score := score_exercise (exercise_at g idx) req (coverage_mask s) |})
      (List.filter (fun idx => negb (is_selected (selected_mask s) idx))
         (valid_indices g req)).

(** The selection of exercise [idx]. *)
Definition select (s : SolveState) (idx : Z) : SolveState :=
  {| selected_mask := mark_selected (selected_mask s) idx;
     coverage_mask := cover (exercise_at g idx) (coverage_mask s);
     result_count := result_count s + 1;
     time_remaining := sub32 (time_remaining s) (time_needed idx);
     out_indices := out_indices s ++ [idx];
     out_sets := out_sets s ++ [fst (base_sets_reps req)];
     out_reps := out_reps s ++ [snd (base_sets_reps req)] |}.

(** The body of the [while] loop; [None] stands for [break]. *)
Definition solve_round (s : SolveState) : option SolveState :=
  let scored := score_remaining s in
  if Z.of_nat (length scored) =? 0 then None
  else
    let scored := qsort compare_scores scored in
    match List.find (fun se => time_needed (index se) <=? time_remaining s) scored with
    | Some se => Some (select s (index se))
    | None => None
    end.

Definition loop_guard (s : SolveState) : bool :=
  (60 <? time_remaining s) && (result_count s <? max_results).

(** At most [rounds] iterations of the [while] loop. *)
Fixpoint solve_loop (rounds : nat) (s : SolveState) : SolveState :=
  match rounds with
  | O => s
  | S rounds' =>
      if loop_guard s then
        match solve_round s with
        | Some s' => solve_loop rounds' s'
        | None => s
        end
      else s
  end.

(** The state of [solve] when it returns.  Every completed iteration
    increments [result_count], which stays below [max_results], so the
    loop has ended after [max_results] iterations. *)
Definition solve_final : SolveState :=
  if g_exercise_count g =? 0 then solve_init req
  else if Z.of_nat (length (valid_indices g req)) =? 0 then solve_init req
  else solve_loop (Z.to_nat max_results) (solve_init req).

(** The entries [(index, sets, reps)] that [solve] has written. *)
Definition solve : list (Z * Z * Z) :=
  zip (zip (out_indices solve_final) (out_sets solve_final)) (out_reps solve_final).

End Solver.

(** ** JavaScript values and the N-API calls of the bindings *)

Inductive js_value :=
| JsUndefined
| JsBool (b : bool)
| JsNumber (d : spec_float)
| JsArray (elems : list js_value)
| JsObject (props : gmap string js_value).

Module Napi.

(** The object from which [napi_get_named_property] reads the
    properties of a value.  [undefined] is no object: the call fails,
    leaves a [TypeError] pending and does not set its result.  A
    boolean, a number and an array are objects with none of the
    properties that the bindings ask for. *)
Definition to_object (value : js_value) : option (gmap string js_value) :=
  match value with
  | JsUndefined => None
  | JsObject props => Some props
  | JsBool _ | JsNumber _ | JsArray _ => Some empty
  end.

Definition has_properties (value : js_value) : bool :=
  match to_object value with
  | Some _ => true
  | None => false
  end.

(** [napi_get_named_property] on an object: a property that is absent
    reads as [undefined]. *)
Definition napi_get_named_property (props : gmap string js_value) (name : string)
    : js_value :=
  default JsUndefined (props !! name).

(** The low 32 bits of the integer part; 0 for NaN and the infinities. *)
Definition to_int32 (d : spec_float) : Z :=
  match truncate d with
  | Some z => wrap32 z
  | None => 0
  end.

(** The three readers leave [result] as it was when the value has
    another type. *)
Definition napi_get_value_int32 (value : js_value) (result : Z) : Z :=
  match value with
  | JsNumber d => to_int32 d
  | _ => result
  end.

Definition napi_get_value_bool (value : js_value) (result : bool) : bool :=
  match value with
  | JsBool b => b
  | _ => result
  end.

Definition napi_get_value_double (value : js_value) (result : spec_float) : spec_float :=
  match value with
  | JsNumber d => d
  | _ => result
  end.

Definition napi_is_array (value : js_value) : bool :=
  match value with
  | JsArray _ => true
  | _ => false
  end.

Definition array_elements (value : js_value) : list js_value :=
  match value with
  | JsArray elems => elems
  | _ => []
  end.

Definition is_boolean (value : js_value) : bool :=
  match value with
  | JsBool _ => true
  | _ => false
  end.

Definition is_number (value : js_value) : bool :=
  match value with
  | JsNumber _ => true
  | _ => false
  end.

End Napi.

Import Napi.

(** ** The exported functions *)

Definition default_weights : ScoringWeights :=
  {| goal_alignment := of_int 10;
     compound_preference := of_int 5;
     recovery_penalty_24h := of_int (-20);
     recovery_penalty_48h := of_int (-10);
     fitness_level_match := of_int 5;
     muscle_coverage_gap := of_int 15 |}.

(** A result, or the message of the error thrown. *)
Definition napi_result (A : Type) : Type := string + A.

Definition int32_property (props : gmap string js_value) (name : string) : Z :=
  napi_get_value_int32 (napi_get_named_property props name) 0.

(** The elements of [activations] that a record hands over: at most
    [MAX_MUSCLES], and none when the property is not an array. *)
Definition activation_elements (props : gmap string js_value) : list js_value :=
  let activations := napi_get_named_property props "activations" in
  if napi_is_array activations
  then take (Z.to_nat MAX_MUSCLES) (array_elements activations)
  else [].

(** The activations of a record; the rest of the row stays zero.  The
    local [act] is declared without a value, and an element that is
    not a number leaves it as it was: the model reads zero then, which
    is the value of the code for the records of [sets_locals]
    only. *)
Definition read_activations (props : gmap string js_value) : list float32 :=
  let vals :=
    map (fun v => of_double (napi_get_value_double v (S754_zero false)))
        (activation_elements props) in
  vals ++ replicate (Z.to_nat MAX_MUSCLES - length vals) zero.

(** One record of the array given to [InitExercises], read from its
    properties.  The local [is_compound] is declared without a value,
    and an [isCompound] that is not a boolean leaves it as it was: the
    model reads false then, which is the value of the code for the
    records of [sets_locals] only. *)
Definition read_exercise (props : gmap string js_value) : Exercise :=
  {| id := int32_property props "id";
     difficulty := int32_property props "difficulty";
     is_compound :=
       if napi_get_value_bool (napi_get_named_property props "isCompound") false
       then 1 else 0;
     movement_pattern := int32_property props "movementPattern";
     estimated_seconds := int32_property props "estimatedSeconds";
     rest_seconds := int32_property props "restSeconds";
     activations := read_activations props;
     primary_muscles_mask := int32_property props "primaryMusclesMask";
     locations_mask := int32_property props "locationsMask";
     equipment_required_mask := int32_property props "equipmentRequiredMask" |}.

(** A record whose reads set the two locals: [isCompound] is a boolean
    and the elements read from [activations] are numbers. *)
Definition sets_locals (props : gmap string js_value) : bool :=
  is_boolean (napi_get_named_property props "isCompound")
  && forallb is_number (activation_elements props).

(** A record of a well-typed load: it has properties, and its reads
    set the two locals. *)
Definition typed_record (elem : js_value) : bool :=
  match to_object elem with
  | Some props => sets_locals props
  | None => false
  end.

(** The slot that the loop of [InitExercises] fills for an element.
    For an element without properties every read fails, and the
    source does not fix what this slot and the slots filled after it
    then hold, beyond the [memset] and the C types.  The model keeps
    the zeroed record for the element and reads the following ones as
    usual; the statements on the content of a catalog are about loads
    whose elements all have properties. *)
Definition read_record (elem : js_value) : Exercise :=
  match to_object elem with
  | Some props => read_exercise props
  | None => zero_exercise
  end.

Definition ERR_EXPECTED_EXERCISES : string := "Expected exercises array".
Definition ERR_EXPECTED_ARRAY : string := "Expected array".
Definition ERR_NOT_INITIALIZED : string :=
  "Exercises not initialized. Call initExercises first.".
Definition ERR_EXPECTED_REQUEST : string := "Expected request object".
Definition ERR_SCORE_NOT_INITIALIZED : string := "Not initialized".

(** The message of the [TypeError] that the engine leaves pending when
    a property is read from [undefined]; the bindings test no status,
    so the error is thrown when the call returns. *)
Definition ERR_TO_OBJECT : string := "Cannot convert undefined or null to object".

(** [InitExercises]: the new globals, and the count returned or the
    error thrown.  The loop runs over the whole array and the count
    and the flag are set whatever the N-API calls answer; with an
    element without properties the call ends with the pending error
    instead of the count. *)
Definition InitExercises (g : Globals) (args : list js_value) : Globals * napi_result Z :=
  match args with
  | [] => (g, inl ERR_EXPECTED_EXERCISES)
  | arg :: _ =>
      if negb (napi_is_array arg) then (g, inl ERR_EXPECTED_ARRAY)
      else
        let records := take (Z.to_nat MAX_EXERCISES) (array_elements arg) in
        let loaded := map read_record records in
        let count := Z.of_nat (length loaded) in
        ({| g_exercises := loaded ++ drop (length loaded) (g_exercises g);
            g_exercise_count := count;
            g_initialized := 1 |},
         if forallb has_properties records then inr count else inl ERR_TO_OBJECT)
  end.

(** The words of [excludedExercisesMask]: at most 16, the others zero. *)
Definition read_excluded (props : gmap string js_value) : list Z :=
  let excluded_arr := napi_get_named_property props "excludedExercisesMask" in
  let vals :=
    if napi_is_array excluded_arr then
      map (fun v => napi_get_value_int32 v 0) (take 16 (array_elements excluded_arr))
    else [] in
  vals ++ replicate (16 - length vals) 0.

(** The request that [Solve] builds from the properties of its
    argument. *)
Definition read_request (props : gmap string js_value) : SolverRequest :=
  {| time_available_seconds := int32_property props "timeAvailableSeconds";
     location := int32_property props "location";
     equipment_mask := int32_property props "equipmentMask";
     goals_mask := int32_property props "goalsMask";
     fitness_level := int32_property props "fitnessLevel";
     excluded_exercises_mask := read_excluded props;
     excluded_muscles_mask := int32_property props "excludedMusclesMask";
     recent_24h_muscles_mask := int32_property props "recent24hMusclesMask";
     recent_48h_muscles_mask := int32_property props "recent48hMusclesMask";
     weights := default_weights |}.

(** The request that [ScoreBatch] builds: four properties, the other
    fields zero. *)
Definition read_score_request (props : gmap string js_value) : SolverRequest :=
  {| time_available_seconds := 0;
     location := 0;
     equipment_mask := 0;
     goals_mask := int32_property props "goalsMask";
     fitness_level := int32_property props "fitnessLevel";
     excluded_exercises_mask := replicate 16 0;
     excluded_muscles_mask := 0;
     recent_24h_muscles_mask := int32_property props "recent24hMusclesMask";
     recent_48h_muscles_mask := int32_property props "recent48hMusclesMask";
     weights := default_weights |}.

Section Bindings.

Variable qsort :
  (ScoredExercise -> ScoredExercise -> Z) -> list ScoredExercise -> list ScoredExercise.

(** [Solve]: the array of [(index, sets, reps)] objects.  With an
    argument without properties every read of the request fails and
    the call ends with the pending error. *)
Definition Solve (g : Globals) (args : list js_value) : napi_result (list (Z * Z * Z)) :=
  if (g_initialized g =? 0) || (g_exercise_count g =? 0) then inl ERR_NOT_INITIALIZED
  else
    match args with
    | [] => inl ERR_EXPECTED_REQUEST
    | arg :: _ =>
        match to_object arg with
        | Some props => inr (solve qsort g (read_request props) MAX_EXERCISES)
        | None => inl ERR_TO_OBJECT
        end
    end.

End Bindings.

(** The score that [ScoreBatch] stores for one index. *)
Definition score_one (g : Globals) (req : SolverRequest) (idx : Z) : float32 :=
  if (0 <=? idx) && (idx <? g_exercise_count g)
  then score_exercise (exercise_at g idx) req 0
  else zero.

(** [ScoreBatch]: [indices] are the [int32_t] values read from the first
    argument, [object] is the second argument. *)
Definition ScoreBatch (g : Globals) (indices : list Z) (object : js_value)
    : napi_result (list float32) :=
  if g_initialized g =? 0 then inl ERR_SCORE_NOT_INITIALIZED
  else
    match to_object object with
    | Some props => inr (map (score_one g (read_score_request props)) indices)
    | None => inl ERR_TO_OBJECT
    end.

Definition GetExerciseCount (g : Globals) : Z := g_exercise_count g.

(** The globals after a sequence of [InitExercises] calls. *)
Definition after_loads (calls : list (list js_value)) : Globals :=
  fold_left (fun g args => fst (InitExercises g args)) calls initial_globals.

(** A call of [InitExercises] that is given an array: it gets past the
    two argument checks and sets the count and the flag. *)
Definition given_array (args : list js_value) : bool :=
  match args with
  | arg :: _ => napi_is_array arg
  | [] => false
  end.

(** The records that a call hands over. *)
Definition load_records (args : list js_value) : list js_value :=
  match args with
  | arg :: _ => array_elements arg
  | [] => []
  end.

(** A call of [InitExercises] that returns a count: it is given an
    array, and every element that it reads has properties. *)
Definition load_succeeds (args : list js_value) : bool :=
  given_array args
  && forallb has_properties (take (Z.to_nat MAX_EXERCISES) (load_records args)).

(** The last call of a sequence that was given an array, and the last
    one that returned a count. *)
Definition last_given (calls : list (list js_value)) : option (list js_value) :=
  last (List.filter given_array calls).

Definition last_load (calls : list (list js_value)) : option (list js_value) :=
  last (List.filter load_succeeds calls).

(** ** The statements of the specification *)

(** Membership of an id in the set packed into the 16 words of
    [excluded_exercises_mask]: bit [i mod 32] of word [i / 32], for the
    ids 0 to 511. *)
Definition excluded_id (words : list Z) (i : Z) : Prop :=
  0 <= i < 512 /\
  exists w, words !! Z.to_nat (i / 32) = Some w /\ Z.testbit w (i mod 32) = true.

(** The lookup as the code makes it, for an id whose bucket is one of
    the 16 words: bit [i mod 32] of word [i / 32], the division
    truncating towards zero, so that the ids from -31 to -1 fall into
    word 0. *)
Definition excluded_lookup (words : list Z) (i : Z) : Prop :=
  -32 < i < 512 /\
  exists w, words !! Z.to_nat (Z.quot i 32) = Some w /\ Z.testbit w (i mod 32) = true.

(** The tests of [passes_hard_filters] on every input: the shifts by
    the location and by the muscle index go through [tested_bit]. *)
Definition filter_tests (within : float32 -> bool)
    (ex : Exercise) (req : SolverRequest) : Prop :=
  tested_bit (locations_mask ex) (location req) /\
  (location req <> 0 ->
   forall k, bit_set (equipment_required_mask ex) k -> bit_set (equipment_mask req) k) /\
  ~ excluded_lookup (excluded_exercises_mask req) (id ex) /\
  (forall k, ~ (bit_set (primary_muscles_mask ex) k /\ bit_set (excluded_muscles_mask req) k)) /\
  (forall m, 0 <= m < MAX_MUSCLES ->
             tested_bit (excluded_muscles_mask req) m -> within (activation ex m) = true).

(** The five filter conditions, over the test [within] that the
    activation of an excluded muscle has to meet. *)
Definition filter_conditions (within : float32 -> bool)
    (ex : Exercise) (req : SolverRequest) : Prop :=
  bit_set (locations_mask ex) (location req) /\
  (location req <> 0 ->
   forall k, bit_set (equipment_required_mask ex) k -> bit_set (equipment_mask req) k) /\
  ~ excluded_id (excluded_exercises_mask req) (id ex) /\
  (forall k, ~ (bit_set (primary_muscles_mask ex) k /\ bit_set (excluded_muscles_mask req) k)) /\
  (forall m, 0 <= m < MAX_MUSCLES ->
             bit_set (excluded_muscles_mask req) m -> within (activation ex m) = true).

(** "At most 40.0", and "not greater than 40.0". *)
Definition at_most_forty (a : float32) : bool := fle a forty.
Definition not_above_forty (a : float32) : bool := negb (fgt a forty).

(** The request with another set of excluded exercises. *)
Definition with_excluded (req : SolverRequest) (words : list Z) : SolverRequest :=
  {| time_available_seconds := time_available_seconds req;
     location := location req;
     equipment_mask := equipment_mask req;
     goals_mask := goals_mask req;
     fitness_level := fitness_level req;
     excluded_exercises_mask := words;
     excluded_muscles_mask := excluded_muscles_mask req;
     recent_24h_muscles_mask := recent_24h_muscles_mask req;
     recent_48h_muscles_mask := recent_48h_muscles_mask req;
     weights := weights req |}.

(** Sets and repetitions in the precedence that the specification
    words: strength, endurance, fat loss, and the default otherwise. *)
Definition claimed_sets_reps (req : SolverRequest) : Z * Z :=
  if Z.testbit (goals_mask req) GOAL_STRENGTH then (5, 4)
  else if Z.testbit (goals_mask req) GOAL_ENDURANCE then (2, 20)
  else if Z.testbit (goals_mask req) GOAL_FAT_LOSS then (3, 14)
  else (3, 10).

(** Sets and repetitions by the first goal bit in the order strength,
    hypertrophy, endurance, fat loss. *)
Definition sets_reps_by_goal (goals : Z) : Z * Z :=
  if Z.testbit goals GOAL_STRENGTH then (5, 4)
  else if Z.testbit goals GOAL_HYPERTROPHY then (4, 10)
  else if Z.testbit goals GOAL_ENDURANCE then (2, 20)
  else if Z.testbit goals GOAL_FAT_LOSS then (3, 14)
  else (3, 10).

(** The time estimate with the rest time rounded to nearest, as the
    specification words it; defined for a finite product. *)
Definition claimed_estimate_time (ex : Exercise) (sets reps : Z)
    (rest_multiplier : float32) : option Z :=
  match round_nearest (fmul (of_int (rest_seconds ex)) rest_multiplier) with
  | Some rest_time =>
      let setup_time := if negb (equipment_required_mask ex =? 0) then 30 else 0 in
      Some (setup_time + sets * (reps * 3) + (sets - 1) * rest_time)
  | None => None
  end.

(** Truncation of a rational towards zero. *)
Definition Qtrunc (q : Q) : Z :=
  if Qle_bool 0 q then Qfloor q else Qceiling q.

(** The sum of the estimated times of the entries of an output. *)
Definition total_time (g : Globals) (req : SolverRequest) (entries : list (Z * Z * Z)) : Z :=
  foldr (fun e acc => time_needed g req (fst (fst e)) + acc) 0 entries.

(** Every bit of [a] is a bit of [b]. *)
Definition mask_subset (a b : Z) : Prop :=
  forall i, Z.testbit a i = true -> Z.testbit b i = true.

(** The estimated times of a list of indices, summed. *)
Definition indices_time (g : Globals) (req : SolverRequest) (idxs : list Z) : Z :=
  foldr (fun idx acc => time_needed g req idx + acc) 0 idxs.

(** ** Invariants of the selection loop *)

(** The output arrays hold the sets and repetitions of the request. *)
Definition outputs_ok (req : SolverRequest) (s : SolveState) : Prop :=
  out_sets s = replicate (length (out_indices s)) (fst (base_sets_reps req)) /\
  out_reps s = replicate (length (out_indices s)) (snd (base_sets_reps req)).

(** The budget invariant, for the budget [b]: what has been selected
    fits, and [time_remaining] is what is left of [b] as long as the
    loop goes on or no estimate is negative. *)
Definition budget_ok (g : Globals) (req : SolverRequest) (b : Z) (s : SolveState) : Prop :=
  in_range (time_remaining s) /\
  (out_indices s <> [] -> indices_time g req (out_indices s) <= b) /\
  (60 < time_remaining s -> time_remaining s = b - indices_time g req (out_indices s)) /\
  (Forall (fun idx => 0 <= time_needed g req idx) (out_indices s) ->
   time_remaining s = b - indices_time g req (out_indices s)).

(** The selection invariant: the mask has its 16 words, the indices
    written are distinct, in the catalog and marked. *)
Definition selection_ok (g : Globals) (s : SolveState) : Prop :=
  length (selected_mask s) = 16%nat /\
  NoDup (out_indices s) /\
  Forall (fun idx => 0 <= idx < g_exercise_count g /\
                     is_selected (selected_mask s) idx = true) (out_indices s).

(** ** A sorting function and sample data *)

Fixpoint insert_sorted (cmp : ScoredExercise -> ScoredExercise -> Z)
    (x : ScoredExercise) (l : list ScoredExercise) : list ScoredExercise :=
  match l with
  | [] => [x]
  | y :: l' => if 0 <? cmp x y then y :: insert_sorted cmp x l' else x :: l
  end.

(** Insertion sort, one function that [qsort] may be. *)
Definition insertion_sort (cmp : ScoredExercise -> ScoredExercise -> Z)
    (l : list ScoredExercise) : list ScoredExercise :=
  fold_right (insert_sorted cmp) [] l.

Definition activation_row (l : list float32) : list float32 :=
  l ++ replicate (Z.to_nat MAX_MUSCLES - length l) zero.

(** A compound push exercise without equipment for gym and home, with
    chest at 80 and triceps at 40. *)
Definition push_up : Exercise :=
  {| id := 7; difficulty := 2; is_compound := 1; movement_pattern := PATTERN_PUSH;
     estimated_seconds := 60; rest_seconds := 90;
     activations := activation_row [of_int 80; of_int 40];
     primary_muscles_mask := 1; locations_mask := 3;
     equipment_required_mask := 0 |}.

(** An isolation exercise that needs equipment, with id 600. *)
Definition cable_curl : Exercise :=
  {| id := 600; difficulty := 3; is_compound := 0; movement_pattern := PATTERN_ISOLATION;
     estimated_seconds := 45; rest_seconds := 30;
     activations := activation_row [zero; zero; of_int 70];
     primary_muscles_mask := 4; locations_mask := 3;
     equipment_required_mask := 1 |}.

(** The push exercise with an activation of the triceps that is not a
    number. *)
Definition nan_push_up : Exercise :=
  {| id := 7; difficulty := 2; is_compound := 1; movement_pattern := PATTERN_PUSH;
     estimated_seconds := 60; rest_seconds := 90;
     activations := activation_row [of_int 80; S754_nan];
     primary_muscles_mask := 1; locations_mask := 3;
     equipment_required_mask := 0 |}.

Definition sample_globals : Globals :=
  {| g_exercises :=
       [push_up; cable_curl] ++ replicate (Z.to_nat MAX_EXERCISES - 2) zero_exercise;
     g_exercise_count := 2;
     g_initialized := 1 |}.

(** Ten minutes at home with one piece of equipment, for hypertrophy at
    the intermediate level. *)
Definition sample_request : SolverRequest :=
  {| time_available_seconds := 600; location := 1; equipment_mask := 1;
     goals_mask := 2; fitness_level := 1;
     excluded_exercises_mask := replicate 16 0; excluded_muscles_mask := 0;
     recent_24h_muscles_mask := 0; recent_48h_muscles_mask := 0;
     weights := default_weights |}.

(** The same request with the triceps (muscle 1) excluded. *)
Definition no_triceps_request : SolverRequest :=
  {| time_available_seconds := 600; location := 1; equipment_mask := 1;
     goals_mask := 2; fitness_level := 1;
     excluded_exercises_mask := replicate 16 0; excluded_muscles_mask := 2;
     recent_24h_muscles_mask := 0; recent_48h_muscles_mask := 0;
     weights := default_weights |}.

(** A request of 100 seconds, less than the reserve. *)
Definition short_request : SolverRequest :=
  {| time_available_seconds := 100; location := 1; equipment_mask := 1;
     goals_mask := 2; fitness_level := 1;
     excluded_exercises_mask := replicate 16 0; excluded_muscles_mask := 0;
     recent_24h_muscles_mask := 0; recent_48h_muscles_mask := 0;
     weights := default_weights |}.

(** The number [z] as a JavaScript value. *)
Definition js_int (z : Z) : js_value := JsNumber (binary_normalize 53 1024 z 0 false).

(** A request object, and the same object with a [weights] property. *)
Definition sample_object : gmap string js_value :=
  {[ "timeAvailableSeconds" := js_int 600; "location" := js_int 1;
     "equipmentMask" := js_int 1; "goalsMask" := js_int 2;
     "fitnessLevel" := js_int 1 ]}.

Definition sample_weights : js_value :=
  JsObject {[ "goalAlignment" := js_int 0; "muscleCoverageGap" := js_int 100 ]}.

(** An exercise for gym and home that activates muscle 32 alone, and
    the push exercise with the id -1. *)
Definition high_muscle_exercise : Exercise :=
  {| id := 8; difficulty := 2; is_compound := 0; movement_pattern := PATTERN_CORE;
     estimated_seconds := 60; rest_seconds := 60;
     activations := replicate 32 zero ++ [of_int 80] ++ replicate 17 zero;
     primary_muscles_mask := 0; locations_mask := 3;
     equipment_required_mask := 0 |}.

Definition minus_one_exercise : Exercise :=
  {| id := -1; difficulty := 2; is_compound := 1; movement_pattern := PATTERN_PUSH;
     estimated_seconds := 60; rest_seconds := 90;
     activations := activation_row [of_int 80; of_int 40];
     primary_muscles_mask := 1; locations_mask := 3;
     equipment_required_mask := 0 |}.

(** The sample request with muscle 0 excluded, and with location 33. *)
Definition no_chest_request : SolverRequest :=
  {| time_available_seconds := 600; location := 1; equipment_mask := 1;
     goals_mask := 2; fitness_level := 1;
     excluded_exercises_mask := replicate 16 0; excluded_muscles_mask := 1;
     recent_24h_muscles_mask := 0; recent_48h_muscles_mask := 0;
     weights := default_weights |}.

Definition far_request : SolverRequest :=
  {| time_available_seconds := 600; location := 33; equipment_mask := 1;
     goals_mask := 2; fitness_level := 1;
     excluded_exercises_mask := replicate 16 0; excluded_muscles_mask := 0;
     recent_24h_muscles_mask := 0; recent_48h_muscles_mask := 0;
     weights := default_weights |}.

(** ** Further definitions for the statements *)

(** The exercise with another difficulty. *)
Definition with_difficulty (ex : Exercise) (d : Z) : Exercise :=
  {| id := id ex; difficulty := d; is_compound := is_compound ex;
     movement_pattern := movement_pattern ex;
     estimated_seconds := estimated_seconds ex; rest_seconds := rest_seconds ex;
     activations := activations ex;
     primary_muscles_mask := primary_muscles_mask ex;
     locations_mask := locations_mask ex;
     equipment_required_mask := equipment_required_mask ex |}.

(** The request with another mask of the muscles worked in the last 48
    hours. *)
Definition with_recent_48h (req : SolverRequest) (mask : Z) : SolverRequest :=
  {| time_available_seconds := time_available_seconds req;
     location := location req;
     equipment_mask := equipment_mask req;
     goals_mask := goals_mask req;
     fitness_level := fitness_level req;
     excluded_exercises_mask := excluded_exercises_mask req;
     excluded_muscles_mask := excluded_muscles_mask req;
     recent_24h_muscles_mask := recent_24h_muscles_mask req;
     recent_48h_muscles_mask := mask;
     weights := weights req |}.

(** The sample request after a day that worked chest and triceps. *)
Definition tired_request : SolverRequest :=
  {| time_available_seconds := 600; location := 1; equipment_mask := 1;
     goals_mask := 2; fitness_level := 1;
     excluded_exercises_mask := replicate 16 0; excluded_muscles_mask := 0;
     recent_24h_muscles_mask := 3; recent_48h_muscles_mask := 0;
     weights := default_weights |}.

(** The rest multiplier by the first goal bit in the order strength,
    endurance, fat loss, mobility, as a rational; 0.6f is the single
    precision number next to 0.6. *)
Definition rest_multiplier_by_goal (goals : Z) : Q :=
  if Z.testbit goals GOAL_STRENGTH then 3 # 2
  else if Z.testbit goals GOAL_ENDURANCE then 1 # 2
  else if Z.testbit goals GOAL_FAT_LOSS then 10066330 # 16777216
  else if Z.testbit goals GOAL_MOBILITY then 3 # 4
  else 1.

(** The two records of a catalog as JavaScript hands them over: the
    push exercise and the curl of the samples. *)
Definition push_up_props : gmap string js_value :=
  {[ "id" := js_int 7; "difficulty" := js_int 2; "isCompound" := JsBool true;
              "movementPattern" := js_int 0; "estimatedSeconds" := js_int 60;
              "restSeconds" := js_int 90; "locationsMask" := js_int 3;
              "equipmentRequiredMask" := js_int 0; "primaryMusclesMask" := js_int 1;
              "activations" := JsArray [js_int 80; js_int 40] ]}.

Definition push_up_record : js_value := JsObject push_up_props.

Definition cable_curl_record : js_value :=
  JsObject {[ "id" := js_int 600; "difficulty" := js_int 3; "isCompound" := JsBool false;
              "movementPattern" := js_int 6; "estimatedSeconds" := js_int 45;
              "restSeconds" := js_int 30; "locationsMask" := js_int 3;
              "equipmentRequiredMask" := js_int 1; "primaryMusclesMask" := js_int 4;
              "activations" := JsArray [js_int 0; js_int 0; js_int 70] ]}.

Definition sample_calls : list (list js_value) :=
  [[JsArray [push_up_record; cable_curl_record]]].

(** The exercise has a positive activation of a muscle that the masks
    keep in bit [b]: the shift by the muscle index takes the index
    modulo 32, so the muscles 32 to 49 share the bits 0 to 17. *)
Definition activates_bit (ex : Exercise) (b : Z) : Prop :=
  exists m, 0 <= m < MAX_MUSCLES /\ m mod 32 = b /\ fgt (activation ex m) zero = true.

(** Two catalogs with the same count and the same entries below it. *)
Definition same_catalog (g1 g2 : Globals) : Prop :=
  g_exercise_count g1 = g_exercise_count g2 /\
  forall idx, 0 <= idx < g_exercise_count g1 -> exercise_at g1 idx = exercise_at g2 idx.

(** * Properties *)

(** ** Facts on 32-bit integers *)

Section Int32Facts.

Lemma wrap32_in_range z : in_range z -> wrap32 z = z.
Proof.
  unfold in_range, INT_MIN, INT_MAX, wrap32. intros H.
  rewrite Z.mod_small; lia.
Qed.

Lemma wrap32_range z : in_range (wrap32 z).
Proof.
  unfold in_range, INT_MIN, INT_MAX, wrap32.
  pose proof (Z.mod_pos_bound (z + 2 ^ 31) (2 ^ 32) ltac:(lia)). lia.
Qed.

Lemma shl32_mod a k : shl32 a (k mod 32) = shl32 a k.
Proof. unfold shl32. now rewrite Z.mod_mod. Qed.

Lemma shl32_1_low k : 0 <= k < 31 -> shl32 1 k = 2 ^ k.
Proof.
  intros Hk. unfold shl32. rewrite Z.mod_small, Z.shiftl_1_l by lia.
  apply wrap32_in_range. unfold in_range, INT_MIN, INT_MAX.
  assert (2 ^ k <= 2 ^ 30) by (apply Z.pow_le_mono_r; lia).
  assert (0 < 2 ^ k) by (apply Z.pow_pos_nonneg; lia). lia.
Qed.

Lemma shl32_1_31 : shl32 1 31 = INT_MIN.
Proof. reflexivity. Qed.

(** Bits from 31 on repeat the sign. *)
Lemma testbit_high m k : in_range m -> 31 <= k -> Z.testbit m k = (m <? 0).
Proof.
  unfold in_range, INT_MIN, INT_MAX. intros Hm Hk.
  destruct (Z.ltb_spec m 0).
  - rewrite <- (Z.opp_involutive m), Z.bits_opp by lia.
    destruct (Z.eq_dec (Z.pred (- m)) 0) as [->|?]; [now rewrite Z.bits_0|].
    rewrite Z.bits_above_log2; [reflexivity|lia|].
    apply Z.lt_le_trans with 31; [|lia]. apply Z.log2_lt_pow2; lia.
  - destruct (Z.eq_dec m 0) as [->|Hnz]; [apply Z.bits_0|].
    apply Z.bits_above_log2; [lia|].
    apply Z.lt_le_trans with 31; [|lia]. apply Z.log2_lt_pow2; lia.
Qed.

Lemma land_pow2 m k : 0 <= k -> Z.land m (2 ^ k) = if Z.testbit m k then 2 ^ k else 0.
Proof.
  intros Hk. apply Z.bits_inj'. intros j Hj.
  rewrite Z.land_spec, Z.pow2_bits_eqb by lia.
  destruct (Z.eqb_spec k j) as [->|Hne].
  - destruct (Z.testbit m j); simpl.
    + rewrite Z.pow2_bits_true; lia.
    + now rewrite Z.bits_0.
  - rewrite andb_false_r. destruct (Z.testbit m k).
    + rewrite Z.pow2_bits_false; lia.
    + now rewrite Z.bits_0.
Qed.

(** The condition [mask & (1 << k)] is bit [k mod 32] of the mask. *)
Lemma has_bit_testbit m k : in_range m -> has_bit m k = Z.testbit m (k mod 32).
Proof.
  intros Hm. unfold has_bit. rewrite <- shl32_mod.
  pose proof (Z.mod_pos_bound k 32 ltac:(lia)) as Hk.
  generalize dependent (k mod 32). clear k. intros k Hk.
  destruct (Z_lt_le_dec k 31) as [?|Hk31].
  { rewrite shl32_1_low, land_pow2 by lia.
    assert (0 < 2 ^ k) by (apply Z.pow_pos_nonneg; lia).
    destruct (Z.testbit m k); [|reflexivity].
    destruct (Z.eqb_spec (2 ^ k) 0); [lia|reflexivity]. }
  replace k with 31 by lia. rewrite shl32_1_31, (testbit_high m 31) by (auto; lia).
  destruct (Z.ltb_spec m 0) as [Hneg|Hpos].
  - apply negb_true_iff, Z.eqb_neq. intros Hz.
    assert (Hb : Z.testbit (Z.land m INT_MIN) 31 = true).
    { rewrite Z.land_spec, (testbit_high m 31) by (auto; lia).
      destruct (Z.ltb_spec m 0); [reflexivity|lia]. }
    rewrite Hz in Hb. now rewrite Z.bits_0 in Hb.
  - apply negb_false_iff, Z.eqb_eq.
    apply Z.bits_inj'. intros j Hj. rewrite Z.land_spec, Z.bits_0.
    destruct (Z_lt_le_dec j 31).
    + replace INT_MIN with (- 2 ^ 31) by reflexivity.
      rewrite (Z.bits_opp (2^31)) by lia.
      replace (Z.pred (2 ^ 31)) with (Z.ones 31) by reflexivity.
      rewrite Z.ones_spec_low by lia. apply andb_false_r.
    + rewrite (testbit_high m j) by (auto; lia).
      destruct (Z.ltb_spec m 0); [lia|reflexivity].
Qed.

Lemma has_bit_tested m k : in_range m -> has_bit m k = true <-> tested_bit m k.
Proof. intros Hm. unfold tested_bit. now rewrite has_bit_testbit. Qed.

Lemma has_bit_spec m k : in_range m -> 0 <= k < 32 -> has_bit m k = true <-> bit_set m k.
Proof.
  intros Hm Hk. rewrite has_bit_testbit, Z.mod_small by assumption.
  unfold bit_set. tauto.
Qed.

Lemma tested_bit_set m k : 0 <= k < 32 -> tested_bit m k <-> bit_set m k.
Proof.
  intros Hk. unfold tested_bit, bit_set. rewrite Z.mod_small by assumption. tauto.
Qed.

Lemma rem_mod_32 i : Z.rem i 32 mod 32 = i mod 32.
Proof.
  rewrite (Z.rem_eq i 32) by lia.
  replace (i - 32 * Z.quot i 32) with (i + (- Z.quot i 32) * 32) by lia.
  apply Z.mod_add. lia.
Qed.

End Int32Facts.

(** ** The hard filters *)

Section FilterFacts.

Lemma subset_check a b :
  in_range a -> in_range b ->
  (Z.land a (Z.lnot b) =? 0) = true <-> (forall k, bit_set a k -> bit_set b k).
Proof.
  intros Ha Hb. rewrite Z.eqb_eq. unfold bit_set. split.
  - intros Hz k [Hk Hak]. split; [assumption|].
    assert (Hbit : Z.testbit (Z.land a (Z.lnot b)) k = false)
      by (rewrite Hz; apply Z.bits_0).
    rewrite Z.land_spec, Z.lnot_spec, Hak in Hbit by lia.
    destruct (Z.testbit b k); [reflexivity|discriminate].
  - intros Hsub. apply Z.bits_inj'. intros j Hj.
    rewrite Z.land_spec, Z.lnot_spec, Z.bits_0 by lia.
    destruct (Z_lt_le_dec j 32) as [Hlt|Hge].
    + destruct (Z.testbit a j) eqn:Haj; [|reflexivity].
      destruct (Hsub j) as [_ ->]; [split; [lia|assumption]|reflexivity].
    + rewrite (testbit_high a j), (testbit_high b j) by (auto; lia).
      rewrite <- (testbit_high a 31), <- (testbit_high b 31) by (auto; lia).
      destruct (Z.testbit a 31) eqn:Haj; [|reflexivity].
      destruct (Hsub 31) as [_ ->]; [split; [lia|assumption]|reflexivity].
Qed.

Lemma disjoint_check a b :
  in_range a -> in_range b ->
  (Z.land a b =? 0) = true <-> (forall k, ~ (bit_set a k /\ bit_set b k)).
Proof.
  intros Ha Hb. rewrite Z.eqb_eq. unfold bit_set. split.
  - intros Hz k [[Hk Hak] [_ Hbk]].
    assert (Hbit : Z.testbit (Z.land a b) k = false)
      by (rewrite Hz; apply Z.bits_0).
    rewrite Z.land_spec, Hak, Hbk in Hbit. discriminate.
  - intros Hdis. apply Z.bits_inj'. intros j Hj.
    rewrite Z.land_spec, Z.bits_0.
    destruct (Z_lt_le_dec j 32) as [Hlt|Hge].
    + destruct (Z.testbit a j) eqn:Haj, (Z.testbit b j) eqn:Hbj; try reflexivity.
      exfalso. apply (Hdis j). repeat split; try lia; assumption.
    + rewrite (testbit_high a j), (testbit_high b j) by (auto; lia).
      rewrite <- (testbit_high a 31), <- (testbit_high b 31) by (auto; lia).
      destruct (Z.testbit a 31) eqn:Haj, (Z.testbit b 31) eqn:Hbj; try reflexivity.
      exfalso. apply (Hdis 31). repeat split; try lia; assumption.
Qed.

Lemma arr_get_lookup (arr : list Z) i w :
  0 <= i -> arr !! Z.to_nat i = Some w -> arr_get arr i = w.
Proof.
  intros Hi Hw. unfold arr_get. destruct (Z.ltb_spec i 0); [lia|]. now rewrite Hw.
Qed.

Lemma excluded_check (words : list Z) i :
  length words = 16%nat -> Forall in_range words -> -32 < i ->
  (div32 i 32 <? 16) && has_bit (arr_get words (div32 i 32)) (rem32 i 32) = true
  <-> excluded_lookup words i.
Proof.
  intros Hlen Hwords Hi. unfold excluded_lookup, div32, rem32.
  rewrite andb_true_iff, Z.ltb_lt.
  assert (Hq : 0 <= Z.quot i 32) by (Z.to_euclidean_division_equations; lia).
  assert (Hword : forall w, words !! Z.to_nat (Z.quot i 32) = Some w ->
            has_bit (arr_get words (Z.quot i 32)) (Z.rem i 32) = Z.testbit w (i mod 32)).
  { intros w Hw. rewrite (arr_get_lookup _ _ _ Hq Hw), has_bit_testbit, rem_mod_32.
    - reflexivity.
    - rewrite Forall_forall in Hwords. apply Hwords.
      eapply list_elem_of_lookup_2; eassumption. }
  split.
  - intros [Hb Hbit].
    assert (Hlt : i < 512) by (Z.to_euclidean_division_equations; lia).
    split; [lia|].
    destruct (lookup_lt_is_Some_2 words (Z.to_nat (Z.quot i 32)) ltac:(lia)) as [w Hw].
    exists w. split; [assumption|]. now rewrite <- (Hword w Hw).
  - intros [Hr (w & Hw & Hbit)].
    split; [Z.to_euclidean_division_equations; lia|].
    now rewrite (Hword w Hw).
Qed.

Lemma muscle_loop_spec ex req :
  in_range (excluded_muscles_mask req) ->
  excluded_muscle_activated ex req = false <->
  (forall m, 0 <= m < MAX_MUSCLES -> tested_bit (excluded_muscles_mask req) m ->
             not_above_forty (activation ex m) = true).
Proof.
  intros Hr. unfold excluded_muscle_activated, not_above_forty. split.
  - intros Hex m Hm Hbit.
    destruct (fgt (activation ex m) forty) eqn:Hgt; [|reflexivity].
    exfalso. apply not_true_iff_false in Hex. apply Hex.
    apply existsb_exists. exists m. split.
    + apply list_elem_of_In, elem_of_seqZ. lia.
    + rewrite Hgt, andb_true_r. now apply has_bit_tested.
  - intros Hall. apply not_true_iff_false. intros Hex.
    apply existsb_exists in Hex. destruct Hex as (m & Hin & Hm).
    apply list_elem_of_In, elem_of_seqZ in Hin.
    apply andb_true_iff in Hm. destruct Hm as [Hbit Hgt].
    apply has_bit_tested in Hbit; [|assumption].
    specialize (Hall m ltac:(lia) Hbit). rewrite Hgt in Hall. discriminate.
Qed.

(** The answer of the filter on every exercise whose lookup stays in
    the array, by the tests that it makes. *)
Lemma passes_hard_filters_tests ex req :
  wf_exercise ex -> wf_request req -> -32 < id ex ->
  passes_hard_filters ex req = true <-> filter_tests not_above_forty ex req.
Proof.
  intros (_ & _ & _ & _ & _ & _ & _ & Hprim & Hloc & Hequip)
         (_ & _ & Hmask & _ & _ & Hlen & Hwords & Hexcl & _) Hid.
  unfold passes_hard_filters, filter_tests.
  pose proof (has_bit_tested (locations_mask ex) (location req) Hloc) as H1.
  pose proof (subset_check _ _ Hequip Hmask) as H2.
  pose proof (excluded_check _ (id ex) Hlen Hwords Hid) as H3.
  fold (exercise_excluded ex req) in H3.
  pose proof (disjoint_check _ _ Hprim Hexcl) as H4.
  pose proof (muscle_loop_spec ex req Hexcl) as H5.
  destruct (has_bit (locations_mask ex) (location req)); simpl;
    [|split; [discriminate|intros [Hc _]; apply H1 in Hc; discriminate]].
  destruct (Z.eqb_spec (location req) 0) as [Hgym|Hgym]; simpl.
  - destruct (exercise_excluded ex req);
      [split; [discriminate|intros (_ & _ & Hc & _); exfalso; apply Hc, H3; reflexivity]|].
    destruct (Z.land (primary_muscles_mask ex) (excluded_muscles_mask req) =? 0); simpl;
      [|split; [discriminate|intros (_ & _ & _ & Hc & _); apply H4 in Hc; discriminate]].
    destruct (excluded_muscle_activated ex req);
      [split; [discriminate|intros (_ & _ & _ & _ & Hc); apply H5 in Hc; discriminate]|].
    split; [intros _|reflexivity].
    split; [apply H1; reflexivity|].
    split; [intros Hne; contradiction|].
    split; [intros Hc; apply H3 in Hc; discriminate|].
    split; [apply H4; reflexivity|apply H5; reflexivity].
  - destruct (Z.land (equipment_required_mask ex) (Z.lnot (equipment_mask req)) =? 0); simpl;
      [|split; [discriminate|intros (_ & Hc & _); specialize (Hc Hgym); apply H2 in Hc; discriminate]].
    destruct (exercise_excluded ex req);
      [split; [discriminate|intros (_ & _ & Hc & _); exfalso; apply Hc, H3; reflexivity]|].
    destruct (Z.land (primary_muscles_mask ex) (excluded_muscles_mask req) =? 0); simpl;
      [|split; [discriminate|intros (_ & _ & _ & Hc & _); apply H4 in Hc; discriminate]].
    destruct (excluded_muscle_activated ex req);
      [split; [discriminate|intros (_ & _ & _ & _ & Hc); apply H5 in Hc; discriminate]|].
    split; [intros _|reflexivity].
    split; [apply H1; reflexivity|].
    split; [intros _; apply H2; reflexivity|].
    split; [intros Hc; apply H3 in Hc; discriminate|].
    split; [apply H4; reflexivity|apply H5; reflexivity].
Qed.

(** For a location that is a mask position, an id that is not negative
    and activations of the muscles from 32 on that meet [within], the
    tests are the five conditions. *)
Lemma filter_tests_conditions (within : float32 -> bool) ex req :
  0 <= location req < 32 -> 0 <= id ex ->
  (forall m, 32 <= m < MAX_MUSCLES -> within (activation ex m) = true) ->
  filter_tests within ex req <-> filter_conditions within ex req.
Proof.
  intros Hloc Hid Hhigh. unfold filter_tests, filter_conditions.
  rewrite (tested_bit_set _ _ Hloc).
  assert (H3 : excluded_lookup (excluded_exercises_mask req) (id ex)
               <-> excluded_id (excluded_exercises_mask req) (id ex)).
  { unfold excluded_lookup, excluded_id. rewrite Z.quot_div_nonneg by lia.
    split; intros [Hr Hw]; (split; [lia|exact Hw]). }
  rewrite H3.
  assert (H5 : (forall m, 0 <= m < MAX_MUSCLES ->
                  tested_bit (excluded_muscles_mask req) m -> within (activation ex m) = true)
               <-> (forall m, 0 <= m < MAX_MUSCLES ->
                  bit_set (excluded_muscles_mask req) m -> within (activation ex m) = true)).
  { split; intros Hall m Hm Hbit.
    - apply Hall; [assumption|]. apply tested_bit_set; [apply Hbit|assumption].
    - destruct (Z_lt_le_dec m 32) as [Hlow|Hge].
      + apply Hall; [assumption|]. apply tested_bit_set; [lia|assumption].
      + apply Hhigh. lia. }
  rewrite H5. reflexivity.
Qed.

End FilterFacts.

Section FilterClaims.

Lemma SFcompare_flip a b c :
  SFcompare a b = Some c -> SFcompare b a = Some (CompOpp c).
Proof.
  destruct a as [sa|sa| |sa ma ea], b as [sb|sb| |sb mb eb]; simpl;
    try discriminate; intros [= <-];
    try (destruct sa; reflexivity); try (destruct sb; reflexivity);
    try (destruct sa, sb; reflexivity).
  destruct sa, sb; try reflexivity;
    rewrite (Z.compare_antisym ea eb); destruct (ea ?= eb); simpl; try reflexivity;
    rewrite (Pos.compare_cont_antisym ma mb Eq); reflexivity.
Qed.

(** Away from NaN the two readings of the threshold agree. *)
Lemma at_most_forty_not_above a :
  a <> S754_nan -> at_most_forty a = not_above_forty a.
Proof.
  intros Hnan. unfold at_most_forty, not_above_forty, fle, fgt, SFleb, SFltb.
  destruct (SFcompare a forty) as [c|] eqn:Hc.
  - rewrite (SFcompare_flip _ _ _ Hc). destruct c; reflexivity.
  - destruct a; try discriminate; try congruence.
Qed.

Lemma filter_conditions_within (f h : float32 -> bool) ex req :
  (forall m, 0 <= m < MAX_MUSCLES -> f (activation ex m) = h (activation ex m)) ->
  filter_conditions f ex req <-> filter_conditions h ex req.
Proof.
  intros Hfh. unfold filter_conditions.
  split; intros (H1 & H2 & H3 & H4 & H5); repeat (split; [assumption|]);
    intros m Hm Hbit; specialize (H5 m Hm Hbit);
    [rewrite <- Hfh by assumption|rewrite Hfh by assumption]; assumption.
Qed.

Lemma wf_push_up : wf_exercise push_up.
Proof.
  unfold wf_exercise, in_range; repeat split; (vm_compute; discriminate).
Qed.

Lemma wf_nan_push_up : wf_exercise nan_push_up.
Proof.
  unfold wf_exercise, in_range; repeat split; (vm_compute; discriminate).
Qed.

Lemma Forall_in_range_zeros n : Forall in_range (replicate n 0).
Proof.
  apply Forall_forall. intros x Hx. apply elem_of_replicate in Hx as [-> _].
  unfold in_range, INT_MIN, INT_MAX. lia.
Qed.

Lemma wf_sample_request : wf_request sample_request.
Proof.
  unfold wf_request; repeat split;
    first [apply Forall_in_range_zeros | vm_compute; discriminate].
Qed.

Lemma wf_no_triceps_request : wf_request no_triceps_request.
Proof.
  unfold wf_request; repeat split;
    first [apply Forall_in_range_zeros | vm_compute; discriminate].
Qed.

End FilterClaims.

(** C1, as amended.  For an exercise and a request of the C types,
    with a location that is one of the 32 positions of a mask, an id
    that is not negative and no activation above 40.0 among the
    muscles from index 32 on, for which a mask has no bit:
    [passes_hard_filters] returns true exactly when the five conditions
    hold, the fifth read as "no excluded muscle has an activation
    greater than 40.0"; when no activation of the exercise is NaN this
    is the reading "at most 40.0" of the claim. *)
Theorem passes_hard_filters_iff (ex : Exercise) (req : SolverRequest) :
  wf_exercise ex -> wf_request req ->
  0 <= location req < 32 -> 0 <= id ex ->
  (forall m, 32 <= m < MAX_MUSCLES -> fgt (activation ex m) forty = false) ->
  (passes_hard_filters ex req = true <-> filter_conditions not_above_forty ex req) /\
  ((forall m, 0 <= m < MAX_MUSCLES -> activation ex m <> S754_nan) ->
   (passes_hard_filters ex req = true <-> filter_conditions at_most_forty ex req)).
Proof.
  intros Hex Hreq Hloc Hid Hhigh.
  assert (Hiff : passes_hard_filters ex req = true
                 <-> filter_conditions not_above_forty ex req).
  { rewrite (passes_hard_filters_tests ex req Hex Hreq) by lia.
    apply filter_tests_conditions; [assumption|assumption|].
    intros m Hm. unfold not_above_forty. now rewrite Hhigh. }
  split; [exact Hiff|].
  intros Hnan. rewrite Hiff. symmetry.
  apply filter_conditions_within. intros m Hm.
  apply at_most_forty_not_above, Hnan, Hm.
Qed.

Lemma activation_row_tail (l : list float32) m :
  0 <= m -> (length l <= Z.to_nat m)%nat ->
  default zero (activation_row l !! Z.to_nat m) = zero.
Proof.
  intros Hm Hlen. unfold activation_row. rewrite lookup_app_r by assumption.
  destruct (replicate _ zero !! _) as [x|] eqn:Hx; [|reflexivity].
  now apply lookup_replicate in Hx as [-> _].
Qed.

Lemma passes_hard_filters_iff_witness :
  passes_hard_filters push_up sample_request = true <->
  filter_conditions not_above_forty push_up sample_request.
Proof.
  refine (proj1 (passes_hard_filters_iff push_up sample_request
                   wf_push_up wf_sample_request _ _ _)).
  - simpl. lia.
  - simpl. lia.
  - intros m Hm. unfold activation, push_up; cbn [activations].
    rewrite activation_row_tail by (simpl; lia). reflexivity.
Defined.

(** C1, the claim as stated fails: with a NaN activation of an excluded
    muscle the exercise passes, although that activation is not at most
    40.0. *)
Lemma passes_hard_filters_nan_counterexample :
  wf_exercise nan_push_up /\ wf_request no_triceps_request /\
  passes_hard_filters nan_push_up no_triceps_request = true /\
  ~ filter_conditions at_most_forty nan_push_up no_triceps_request.
Proof.
  split; [exact wf_nan_push_up|]. split; [exact wf_no_triceps_request|].
  split; [vm_compute; reflexivity|].
  intros (_ & _ & _ & _ & H5).
  specialize (H5 1 ltac:(unfold MAX_MUSCLES; lia)).
  assert (Hbit : bit_set (excluded_muscles_mask no_triceps_request) 1)
    by (split; [lia|reflexivity]).
  specialize (H5 Hbit). vm_compute in H5. discriminate.
Qed.

(** Outside the range of C1 the shifts take their count modulo 32: an
    exercise that activates muscle 32 alone is rejected when muscle 0
    is excluded, location 33 is tested as location 1, and the id -1 is
    looked up as bit 31 of word 0. *)
Example muscle_32_tested_in_bit_0 :
  passes_hard_filters high_muscle_exercise sample_request = true /\
  passes_hard_filters high_muscle_exercise no_chest_request = false.
Proof. split; vm_compute; reflexivity. Qed.

Example location_33_tested_in_bit_1 :
  passes_hard_filters push_up far_request = true.
Proof. vm_compute. reflexivity. Qed.

Example id_minus_1_tested_in_bit_31 :
  passes_hard_filters minus_one_exercise sample_request = true /\
  passes_hard_filters minus_one_exercise
    (with_excluded sample_request (INT_MIN :: replicate 15 0)) = false.
Proof. split; vm_compute; reflexivity. Qed.

(** C10.  An exercise whose id is 512 or more is never hit by the
    excluded-exercises lookup, and the filter gives it the same answer
    whatever the excluded set is. *)
Theorem large_id_not_excluded (ex : Exercise) (req : SolverRequest) :
  512 <= id ex ->
  exercise_excluded ex req = false /\
  (forall words, passes_hard_filters ex (with_excluded req words)
                 = passes_hard_filters ex req).
Proof.
  intros Hid.
  assert (Hb : forall r, exercise_excluded ex r = false).
  { intros r. unfold exercise_excluded, div32.
    destruct (Z.ltb_spec (Z.quot (id ex) 32) 16) as [Hlt|_]; [|reflexivity].
    exfalso. revert Hlt. Z.to_euclidean_division_equations. lia. }
  split; [apply Hb|].
  intros words. unfold passes_hard_filters. rewrite !Hb. reflexivity.
Qed.

Lemma large_id_not_excluded_witness :
  exercise_excluded cable_curl (with_excluded sample_request (replicate 16 (-1))) = false.
Proof.
  refine (proj1 (large_id_not_excluded cable_curl _ _)).
  simpl. lia.
Defined.

(** A record is stored with the id it carries: the load checks no
    range. *)
Lemma read_exercise_id (props : gmap string js_value) (d : spec_float) :
  id (read_exercise (<["id" := JsNumber d]> props)) = to_int32 d.
Proof.
  unfold read_exercise, int32_property, napi_get_named_property; simpl.
  now rewrite lookup_insert_eq.
Qed.

Example load_keeps_id_600 :
  let g := fst (InitExercises initial_globals [JsArray [JsObject {[ "id" := js_int 600 ]}]]) in
  g_exercise_count g = 1 /\ id (exercise_at g 0) = 600.
Proof. split; reflexivity. Qed.

(** ** The time estimate *)

Section EstimateFacts.

Lemma wrap32_mod a : wrap32 a mod 2 ^ 32 = a mod 2 ^ 32.
Proof.
  unfold wrap32.
  rewrite Zminus_mod_idemp_l. f_equal. lia.
Qed.

Lemma wrap32_congr a b : a mod 2 ^ 32 = b mod 2 ^ 32 -> wrap32 a = wrap32 b.
Proof.
  intros H. unfold wrap32.
  rewrite <- (Zplus_mod_idemp_l a), <- (Zplus_mod_idemp_l b), H. reflexivity.
Qed.

Lemma wrap32_add_l a b : wrap32 (wrap32 a + b) = wrap32 (a + b).
Proof.
  apply wrap32_congr.
  rewrite <- Zplus_mod_idemp_l, wrap32_mod, Zplus_mod_idemp_l. reflexivity.
Qed.

Lemma wrap32_add_r a b : wrap32 (a + wrap32 b) = wrap32 (a + b).
Proof. rewrite Z.add_comm, wrap32_add_l, Z.add_comm. reflexivity. Qed.

Lemma wrap32_mul_l a b : wrap32 (wrap32 a * b) = wrap32 (a * b).
Proof.
  apply wrap32_congr.
  rewrite <- Zmult_mod_idemp_l, wrap32_mod, Zmult_mod_idemp_l. reflexivity.
Qed.

Lemma wrap32_mul_r a b : wrap32 (a * wrap32 b) = wrap32 (a * b).
Proof. rewrite Z.mul_comm, wrap32_mul_l, Z.mul_comm. reflexivity. Qed.

Lemma in_rangeb_spec z : in_rangeb z = true <-> in_range z.
Proof. unfold in_rangeb, in_range. rewrite andb_true_iff, !Z.leb_le. reflexivity. Qed.

(** The integer part taken from mantissa and exponent is the
    truncation of the rational value. *)
Lemma truncate_Qtrunc x q : to_Q x = Some q -> truncate x = Some (Qtrunc q).
Proof.
  destruct x as [s|s| |s m e]; simpl; try discriminate.
  - intros [= <-]. reflexivity.
  - intros [= <-]. f_equal. unfold Qtrunc, Qle_bool, Qceiling, Qfloor, Qopp.
    destruct (Z.leb_spec 0 e) as [He|He]; cbn [Qnum Qden]; cbv beta iota.
    + destruct s.
      * assert (Hn : Z.neg m * 2 ^ e < 0)
          by (apply Z.mul_neg_pos; [lia|apply Z.pow_pos_nonneg; lia]).
        destruct (Z.leb_spec (0 * 1) (Z.neg m * 2 ^ e * 1)); [lia|].
        rewrite Z.div_1_r. change (Z.neg m) with (- Z.pos m). lia.
      * assert (Hn : 0 < Z.pos m * 2 ^ e)
          by (apply Z.mul_pos_pos; [lia|apply Z.pow_pos_nonneg; lia]).
        destruct (Z.leb_spec (0 * 1) (Z.pos m * 2 ^ e * 1)); [|lia].
        rewrite Z.div_1_r. reflexivity.
    + assert (Hd : 0 < 2 ^ (- e)) by (apply Z.pow_pos_nonneg; lia).
      rewrite Z2Pos.id by assumption.
      destruct s.
      * destruct (Z.leb_spec (0 * 2 ^ (- e)) (Z.neg m * 1)); [lia|].
        change (- Z.neg m) with (Z.pos m). reflexivity.
      * destruct (Z.leb_spec (0 * 2 ^ (- e)) (Z.pos m * 1)); [|lia].
        reflexivity.
Qed.

Lemma to_int_Qtrunc x q :
  to_Q x = Some q -> in_range (Qtrunc q) -> to_int x = Qtrunc q.
Proof.
  intros Hq Hr. unfold to_int. rewrite (truncate_Qtrunc x q Hq).
  apply in_rangeb_spec in Hr. rewrite Hr. reflexivity.
Qed.

End EstimateFacts.

(** C4, as amended.  When the product of [rest_seconds] and the rest
    multiplier is finite and its integer part is an [int32_t],
    [estimate_time] returns
    [setup_time + sets*(reps*3) + (sets-1)*rest_time] in 32-bit
    arithmetic, where [rest_time] is the product truncated towards
    zero and [setup_time] is 30 with equipment and 0 without. *)
Theorem estimate_time_truncates (ex : Exercise) (sets reps : Z)
    (rest_multiplier : float32) (q : Q) :
  to_Q (fmul (of_int (rest_seconds ex)) rest_multiplier) = Some q ->
  in_range (Qtrunc q) ->
  let setup_time := if equipment_required_mask ex =? 0 then 0 else 30 in
  let total := setup_time + sets * (reps * 3) + (sets - 1) * Qtrunc q in
  estimate_time ex sets reps rest_multiplier = wrap32 total /\
  (in_range total -> estimate_time ex sets reps rest_multiplier = total).
Proof.
  intros Hq Hr setup_time total.
  assert (Hw : estimate_time ex sets reps rest_multiplier = wrap32 total).
  { unfold estimate_time, add32, mul32, sub32.
    rewrite (to_int_Qtrunc _ q Hq Hr).
    rewrite wrap32_mul_l, wrap32_mul_r, wrap32_add_l, wrap32_add_r.
    set (P := wrap32 (sets * (reps * 3))).
    set (S0 := if negb (equipment_required_mask ex =? 0) then 30 else 0).
    replace (S0 + P + (sets - 1) * Qtrunc q) with (S0 + (sets - 1) * Qtrunc q + P) by lia.
    unfold P. rewrite wrap32_add_r.
    unfold total, setup_time, S0.
    destruct (equipment_required_mask ex =? 0); simpl negb; cbv iota; f_equal; lia. }
  split; [exact Hw|].
  intros Ht. rewrite Hw. apply wrap32_in_range, Ht.
Qed.

Lemma estimate_time_truncates_witness :
  estimate_time push_up 3 10 three_quarters = 0 + 3 * (10 * 3) + (3 - 1) * 67.
Proof.
  refine (proj2 (estimate_time_truncates push_up 3 10 three_quarters (8847360 # 131072) _ _) _).
  - reflexivity.
  - vm_compute. split; discriminate.
  - vm_compute. split; discriminate.
Defined.

(** C4, the claim as stated fails: a rest of 90 seconds at the
    multiplier 0.75 is 67.5 seconds, which the code takes as 67 and the
    claim as 68. *)
Lemma estimate_time_round_counterexample :
  estimate_time push_up 3 10 three_quarters = 224 /\
  claimed_estimate_time push_up 3 10 three_quarters = Some 226.
Proof. split; reflexivity. Qed.

(** ** The selection loop *)

Lemma insert_sorted_permutes cmp x l : Permutation (insert_sorted cmp x l) (x :: l).
Proof.
  induction l as [|y l IH]; simpl; [reflexivity|].
  destruct (0 <? cmp x y); [|reflexivity].
  rewrite IH. apply perm_swap.
Qed.

Lemma insertion_sort_permutes cmp l : Permutation (insertion_sort cmp l) l.
Proof.
  induction l as [|x l IH]; simpl; [reflexivity|].
  rewrite insert_sorted_permutes. now constructor.
Qed.

Lemma has_bit_low m k : 0 <= k < 31 -> has_bit m k = Z.testbit m k.
Proof.
  intros Hk. unfold has_bit. rewrite shl32_1_low, land_pow2 by lia.
  assert (0 < 2 ^ k) by (apply Z.pow_pos_nonneg; lia).
  destruct (Z.testbit m k); [|reflexivity].
  destruct (Z.eqb_spec (2 ^ k) 0); [lia|reflexivity].
Qed.

Lemma base_sets_reps_goal req : base_sets_reps req = sets_reps_by_goal (goals_mask req).
Proof.
  unfold base_sets_reps, sets_reps_by_goal,
    GOAL_STRENGTH, GOAL_HYPERTROPHY, GOAL_ENDURANCE, GOAL_FAT_LOSS.
  rewrite !has_bit_low by lia. reflexivity.
Qed.

Lemma zip_replicate_map {A B C} (l : list A) (b : B) (c : C) :
  zip (zip l (replicate (length l) b)) (replicate (length l) c)
  = map (fun a => (a, b, c)) l.
Proof. induction l as [|a l IH]; simpl; [reflexivity|]. now rewrite IH. Qed.

Section LoopFacts.

Variable qsort :
  (ScoredExercise -> ScoredExercise -> Z) -> list ScoredExercise -> list ScoredExercise.
Variable g : Globals.
Variable req : SolverRequest.
Variable max_results : Z.


(** A round that does not break selects an entry of the sorted array
    whose time fits. *)
Lemma solve_round_Some s s' :
  solve_round qsort g req s = Some s' ->
  exists se, In se (qsort compare_scores (score_remaining g req s)) /\
             time_needed g req (index se) <= time_remaining s /\
             s' = select g req s (index se).
Proof.
  unfold solve_round.
  destruct (Z.of_nat (length (score_remaining g req s)) =? 0); [discriminate|].
  destruct (List.find _ _) as [se|] eqn:Hfind; [|discriminate].
  intros [= <-]. apply find_some in Hfind as [Hin Hfit].
  exists se. rewrite Z.leb_le in Hfit. auto.
Qed.

(** Induction over the iterations of the loop. *)
Lemma solve_loop_ind (P : SolveState -> Prop) :
  (forall s s', P s -> loop_guard max_results s = true -> solve_round qsort g req s = Some s' -> P s') ->
  forall rounds s, P s -> P (solve_loop qsort g req max_results rounds s).
Proof.
  intros Hstep rounds. induction rounds as [|rounds IH]; intros s Hs; simpl; [assumption|].
  destruct (loop_guard max_results s) eqn:Hguard; [|assumption].
  destruct (solve_round qsort g req s) as [s'|] eqn:Hround; [|assumption].
  eapply IH, Hstep; eassumption.
Qed.

(** One more iteration is an iteration from the state reached. *)
Lemma solve_loop_succ rounds s :
  solve_loop qsort g req max_results (S rounds) s = solve_loop qsort g req max_results 1 (solve_loop qsort g req max_results rounds s).
Proof.
  revert s. induction rounds as [|rounds IH]; intros s; [reflexivity|].
  change (solve_loop qsort g req max_results (S (S rounds)) s) with
    (if loop_guard max_results s then
       match solve_round qsort g req s with
       | Some s' => solve_loop qsort g req max_results (S rounds) s'
       | None => s
       end
     else s).
  change (solve_loop qsort g req max_results (S rounds) s) with
    (if loop_guard max_results s then
       match solve_round qsort g req s with
       | Some s' => solve_loop qsort g req max_results rounds s'
       | None => s
       end
     else s).
  destruct (loop_guard max_results s) eqn:Hguard; [|simpl; now rewrite Hguard].
  destruct (solve_round qsort g req s) as [s'|] eqn:Hround; [apply IH|].
  simpl. now rewrite Hguard, Hround.
Qed.

(** The loop has ended after [max_results] iterations. *)
Lemma solve_loop_enough rounds s :
  max_results - result_count s <= Z.of_nat rounds ->
  solve_loop qsort g req max_results (S rounds) s = solve_loop qsort g req max_results rounds s.
Proof.
  revert s. induction rounds as [|rounds IH]; intros s Hleft.
  - simpl. unfold loop_guard.
    destruct (Z.ltb_spec (result_count s) max_results); [lia|].
    now rewrite andb_false_r.
  - change (solve_loop qsort g req max_results (S (S rounds)) s) with
      (if loop_guard max_results s then
         match solve_round qsort g req s with
         | Some s' => solve_loop qsort g req max_results (S rounds) s'
         | None => s
         end
       else s).
    change (solve_loop qsort g req max_results (S rounds) s) with
      (if loop_guard max_results s then
         match solve_round qsort g req s with
         | Some s' => solve_loop qsort g req max_results rounds s'
         | None => s
         end
       else s).
    destruct (loop_guard max_results s); [|reflexivity].
    destruct (solve_round qsort g req s) as [s'|] eqn:Hround; [|reflexivity].
    apply IH. apply solve_round_Some in Hround as (se & _ & _ & ->).
    simpl. lia.
Qed.

Lemma solve_loop_stable rounds :
  (Z.to_nat max_results <= rounds)%nat ->
  solve_loop qsort g req max_results rounds (solve_init req) = solve_loop qsort g req max_results (Z.to_nat max_results) (solve_init req).
Proof.
  induction 1 as [|rounds Hle IH]; [reflexivity|].
  rewrite solve_loop_enough; [assumption|]. simpl. lia.
Qed.

Lemma outputs_ok_loop rounds : outputs_ok req (solve_loop qsort g req max_results rounds (solve_init req)).
Proof.
  apply solve_loop_ind; [|split; reflexivity].
  intros s s' [Hsets Hreps] _ Hround.
  apply solve_round_Some in Hround as (se & _ & _ & ->).
  unfold outputs_ok; simpl. rewrite Hsets, Hreps, length_app. simpl.
  rewrite Nat.add_1_r, !replicate_S_end. split; reflexivity.
Qed.

Lemma outputs_ok_final : outputs_ok req (solve_final qsort g req max_results).
Proof.
  unfold solve_final.
  destruct (g_exercise_count g =? 0); [split; reflexivity|].
  destruct (Z.of_nat (length (valid_indices g req)) =? 0); [split; reflexivity|].
  apply outputs_ok_loop.
Qed.

(** The entries of the output, by the indices written. *)
Lemma solve_entries :
  solve qsort g req max_results
  = map (fun idx => (idx, fst (base_sets_reps req), snd (base_sets_reps req)))
        (out_indices (solve_final qsort g req max_results)).
Proof.
  unfold solve. destruct outputs_ok_final as [-> ->]. apply zip_replicate_map.
Qed.

End LoopFacts.

(** C3, as amended.  The sets and repetitions come from the first goal
    bit set in the order strength (5,4), hypertrophy (4,10), endurance
    (2,20), fat loss (3,14), and are (3,10) when none of these is set,
    as for mobility alone; every entry of the output of [solve]
    carries them. *)
Theorem base_sets_reps_precedence
    (qsort : (ScoredExercise -> ScoredExercise -> Z)
             -> list ScoredExercise -> list ScoredExercise)
    (g : Globals) (req : SolverRequest) (max_results : Z) :
  base_sets_reps req = sets_reps_by_goal (goals_mask req) /\
  Forall (fun e => (snd (fst e), snd e) = sets_reps_by_goal (goals_mask req))
         (solve qsort g req max_results).
Proof.
  split; [apply base_sets_reps_goal|].
  rewrite solve_entries, Forall_map. apply Forall_true. intros idx. simpl.
  rewrite <- base_sets_reps_goal. now destruct (base_sets_reps req).
Qed.

(** C3, the claim as stated fails: a request with the hypertrophy bit
    alone gets 4 sets of 10, not 3 sets of 10. *)
Lemma hypertrophy_sets_counterexample :
  goals_mask sample_request = shl32 1 GOAL_HYPERTROPHY /\
  claimed_sets_reps sample_request = (3, 10) /\
  base_sets_reps sample_request = (4, 10) /\
  solve insertion_sort sample_globals sample_request MAX_EXERCISES = [(0, 4, 10)].
Proof. repeat split; vm_compute; reflexivity. Qed.

(** ** The time budget *)

Lemma wrap32_no_overflow v : 0 <= v < 2 ^ 32 -> 60 < wrap32 v -> wrap32 v = v.
Proof.
  unfold wrap32. intros Hv Hw.
  destruct (Z_lt_le_dec v (2 ^ 31)) as [Hlt|Hge].
  - rewrite Z.mod_small; lia.
  - exfalso. revert Hw.
    replace (v + 2 ^ 31) with (v - 2 ^ 31 + 1 * 2 ^ 32) by lia.
    rewrite Z.mod_add, Z.mod_small; lia.
Qed.

Lemma estimate_time_range ex sets reps m : in_range (estimate_time ex sets reps m).
Proof. unfold estimate_time, add32. apply wrap32_range. Qed.

Lemma indices_time_snoc g req idxs idx :
  indices_time g req (idxs ++ [idx]) = indices_time g req idxs + time_needed g req idx.
Proof.
  unfold indices_time. induction idxs as [|i idxs IH]; simpl; [lia|]. rewrite IH. lia.
Qed.

Lemma total_time_entries g req (a b : Z) idxs :
  total_time g req (map (fun idx => (idx, a, b)) idxs) = indices_time g req idxs.
Proof.
  unfold total_time, indices_time.
  induction idxs as [|i idxs IH]; simpl; [reflexivity|]. now rewrite IH.
Qed.

Section BudgetFacts.

Variable qsort :
  (ScoredExercise -> ScoredExercise -> Z) -> list ScoredExercise -> list ScoredExercise.
Variable g : Globals.
Variable req : SolverRequest.
Variable max_results : Z.
Hypothesis time_available_range : 0 <= time_available_seconds req <= INT_MAX.

#[local] Abbreviation budget := (time_available_seconds req - warmup_cooldown req).

Lemma warmup_cooldown_cases : warmup_cooldown req = 300 \/ warmup_cooldown req = 120.
Proof. unfold warmup_cooldown. destruct (1800 <=? _); auto. Qed.

Lemma solve_init_time : time_remaining (solve_init req) = budget.
Proof.
  simpl. unfold sub32. apply wrap32_in_range.
  unfold in_range, INT_MIN, INT_MAX in *.
  destruct warmup_cooldown_cases as [-> | ->]; lia.
Qed.

Lemma budget_ok_init : budget_ok g req budget (solve_init req).
Proof.
  unfold budget_ok. rewrite solve_init_time. simpl.
  split; [|split; [congruence|split; intros; lia]].
  unfold in_range, INT_MIN, INT_MAX in *.
  destruct warmup_cooldown_cases as [-> | ->]; lia.
Qed.

Lemma budget_ok_step s s' :
  budget_ok g req budget s -> loop_guard max_results s = true ->
  solve_round qsort g req s = Some s' -> budget_ok g req budget s'.
Proof.
  intros (Hr & Hsum & Hexact & Hpos) Hguard Hround.
  apply solve_round_Some in Hround as (se & _ & Hfit & ->).
  unfold loop_guard in Hguard. apply andb_true_iff in Hguard as [Hleft _].
  apply Z.ltb_lt in Hleft. specialize (Hexact Hleft).
  assert (Ht : in_range (time_needed g req (index se)))
    by apply estimate_time_range.
  unfold budget_ok, select; cbn [time_remaining out_indices].
  rewrite indices_time_snoc. unfold sub32.
  unfold in_range, INT_MIN, INT_MAX in *.
  split; [apply wrap32_range|]. split; [intros _; lia|]. split.
  - intros Hw. rewrite wrap32_no_overflow; [lia|lia|exact Hw].
  - intros Hall. apply Forall_app in Hall as [_ Hlast].
    rewrite Forall_singleton in Hlast.
    rewrite wrap32_in_range; [lia|]. unfold in_range, INT_MIN, INT_MAX. lia.
Qed.

Lemma budget_ok_loop rounds :
  budget_ok g req budget (solve_loop qsort g req max_results rounds (solve_init req)).
Proof.
  apply solve_loop_ind; [|apply budget_ok_init].
  intros s s'. apply budget_ok_step.
Qed.

Lemma budget_ok_final : budget_ok g req budget (solve_final qsort g req max_results).
Proof.
  unfold solve_final.
  destruct (g_exercise_count g =? 0); [apply budget_ok_init|].
  destruct (Z.of_nat (length (valid_indices g req)) =? 0); [apply budget_ok_init|].
  apply budget_ok_loop.
Qed.

Lemma small_budget_no_round rounds :
  budget <= 60 ->
  solve_loop qsort g req max_results rounds (solve_init req) = solve_init req.
Proof.
  intros Hsmall. destruct rounds as [|rounds]; [reflexivity|].
  simpl solve_loop. unfold loop_guard. rewrite solve_init_time.
  destruct (Z.ltb_spec 60 budget); [lia|]. reflexivity.
Qed.

Lemma small_budget_final :
  budget <= 60 -> out_indices (solve_final qsort g req max_results) = [].
Proof.
  intros Hsmall. unfold solve_final.
  destruct (g_exercise_count g =? 0); [reflexivity|].
  destruct (Z.of_nat (length (valid_indices g req)) =? 0); [reflexivity|].
  now rewrite small_budget_no_round.
Qed.

End BudgetFacts.

(** C2, as amended.  For a request whose time is a non-negative
    [int32_t]: a non-empty output of [solve] has a sum of estimated
    times that is at most the time available minus the reserve; with a
    budget of 60 or less (so with a negative one) the output is empty;
    and after any number of rounds, once an exercise has been selected
    and the estimates of the selected exercises are not negative,
    [time_remaining] is the budget minus their sum and is not
    negative. *)
Theorem time_budget_safety
    (qsort : (ScoredExercise -> ScoredExercise -> Z)
             -> list ScoredExercise -> list ScoredExercise)
    (g : Globals) (req : SolverRequest) (max_results : Z) :
  0 <= time_available_seconds req <= INT_MAX ->
  let budget := time_available_seconds req - warmup_cooldown req in
  let out := solve qsort g req max_results in
  (out <> [] -> total_time g req out <= budget) /\
  (budget <= 60 -> out = []) /\
  (forall rounds,
     let s := solve_loop qsort g req max_results rounds (solve_init req) in
     out_indices s <> [] ->
     Forall (fun idx => 0 <= time_needed g req idx) (out_indices s) ->
     time_remaining s = budget - indices_time g req (out_indices s) /\
     0 <= time_remaining s).
Proof.
  intros Htime budget out.
  unfold out. rewrite solve_entries, total_time_entries.
  split; [|split].
  - destruct (budget_ok_final qsort g req max_results Htime) as (_ & Hsum & _).
    intros Hne. apply Hsum. intros Hnil. apply Hne. now rewrite Hnil.
  - intros Hsmall. now rewrite small_budget_final.
  - intros rounds. cbv zeta. intros Hne Hall.
    destruct (budget_ok_loop qsort g req max_results Htime rounds)
      as (_ & Hsum & _ & Hexact).
    specialize (Hsum Hne). specialize (Hexact Hall).
    fold budget in Hsum, Hexact. split; [assumption|lia].
Qed.

Lemma time_budget_safety_witness :
  total_time sample_globals sample_request
    (solve insertion_sort sample_globals sample_request MAX_EXERCISES)
  <= time_available_seconds sample_request - warmup_cooldown sample_request.
Proof.
  refine (proj1 (time_budget_safety insertion_sort sample_globals sample_request
                   MAX_EXERCISES _) _).
  - vm_compute. split; discriminate.
  - vm_compute. discriminate.
Defined.

(** C2, the claim as stated fails: with 100 seconds the budget is
    negative, the output is empty, and its sum 0 exceeds the budget. *)
Lemma negative_budget_counterexample :
  solve insertion_sort sample_globals short_request MAX_EXERCISES = [] /\
  time_available_seconds short_request - warmup_cooldown short_request = -20 /\
  ~ (total_time sample_globals short_request
       (solve insertion_sort sample_globals short_request MAX_EXERCISES)
     <= time_available_seconds short_request - warmup_cooldown short_request).
Proof.
  split; [vm_compute; reflexivity|]. split; [vm_compute; reflexivity|].
  vm_compute. intros H. apply H. reflexivity.
Qed.

(** ** Selection and coverage *)

Lemma shl32_1_nonzero k : 0 <= k < 32 -> shl32 1 k <> 0.
Proof.
  intros Hk. destruct (Z_lt_le_dec k 31).
  - rewrite shl32_1_low by lia.
    assert (0 < 2 ^ k) by (apply Z.pow_pos_nonneg; lia). lia.
  - replace k with 31 by lia. rewrite shl32_1_31. discriminate.
Qed.

Lemma has_bit_lor_same w k : 0 <= k < 32 -> has_bit (Z.lor w (shl32 1 k)) k = true.
Proof.
  intros Hk. unfold has_bit.
  replace (Z.land (Z.lor w (shl32 1 k)) (shl32 1 k)) with (shl32 1 k).
  - apply negb_true_iff, Z.eqb_neq, shl32_1_nonzero, Hk.
  - symmetry. apply Z.bits_inj'. intros i _.
    rewrite Z.land_spec, Z.lor_spec.
    destruct (Z.testbit w i), (Z.testbit (shl32 1 k) i); reflexivity.
Qed.

Lemma has_bit_lor_keep w c k : has_bit w k = true -> has_bit (Z.lor w c) k = true.
Proof.
  unfold has_bit. rewrite !negb_true_iff, !Z.eqb_neq. intros Hw Hz. apply Hw.
  rewrite Z.land_lor_distr_l in Hz. apply Z.lor_eq_0_iff in Hz. apply Hz.
Qed.

Lemma has_bit_zero k : has_bit 0 k = false.
Proof. unfold has_bit. now rewrite Z.land_0_l. Qed.

Lemma arr_get_insert_same (arr : list Z) i v :
  0 <= i -> (Z.to_nat i < length arr)%nat -> arr_get (<[Z.to_nat i := v]> arr) i = v.
Proof.
  intros Hi Hlen. unfold arr_get. destruct (Z.ltb_spec i 0); [lia|].
  now rewrite list_lookup_insert_eq.
Qed.

Lemma arr_get_insert_other (arr : list Z) i j v :
  0 <= i -> i <> j -> arr_get (<[Z.to_nat i := v]> arr) j = arr_get arr j.
Proof.
  intros Hi Hne. unfold arr_get. destruct (Z.ltb_spec j 0); [reflexivity|].
  rewrite list_lookup_insert_ne by lia. reflexivity.
Qed.

Lemma is_selected_mark_same mask idx :
  length mask = 16%nat -> 0 <= idx < 512 ->
  is_selected (mark_selected mask idx) idx = true.
Proof.
  intros Hlen Hidx. unfold is_selected, mark_selected, div32, rem32.
  rewrite Z.quot_div_nonneg, Z.rem_mod_nonneg by lia.
  assert (Hb : 0 <= idx / 32 < 16) by (Z.to_euclidean_division_equations; lia).
  pose proof (Z.mod_pos_bound idx 32 ltac:(lia)) as Hbit.
  rewrite arr_get_insert_same by lia.
  apply has_bit_lor_same. lia.
Qed.

Lemma is_selected_mark_keep mask idx j :
  0 <= idx -> is_selected mask j = true ->
  is_selected (mark_selected mask idx) j = true.
Proof.
  intros Hidx. unfold is_selected, mark_selected, div32, rem32.
  assert (Hb : 0 <= Z.quot idx 32) by (Z.to_euclidean_division_equations; lia).
  generalize (Z.rem idx 32) (Z.rem j 32) (Z.quot j 32) (Z.quot idx 32) Hb.
  clear. intros ci cj bj bi Hb Hsel.
  destruct (Z.eq_dec bi bj) as [<-|Hne].
  - destruct (Nat.lt_ge_cases (Z.to_nat bi) (length mask)) as [Hin|Hout].
    + rewrite arr_get_insert_same by assumption. now apply has_bit_lor_keep.
    + rewrite list_insert_ge by assumption. assumption.
  - rewrite arr_get_insert_other by assumption. assumption.
Qed.

Lemma valid_indices_range g req idx :
  In idx (valid_indices g req) -> 0 <= idx < g_exercise_count g.
Proof.
  unfold valid_indices. intros Hin. apply filter_In in Hin as [Hin _].
  apply list_elem_of_In, elem_of_seqZ in Hin. lia.
Qed.

Lemma cover_superset ex cov : mask_subset cov (cover ex cov).
Proof.
  unfold cover. generalize (seqZ 0 MAX_MUSCLES). intros ms. revert cov.
  induction ms as [|m ms IH]; intros cov i Hi; simpl; [assumption|].
  apply IH. destruct (fgt (activation ex m) zero); [|assumption].
  rewrite Z.lor_spec, Hi. reflexivity.
Qed.

Section SelectionFacts.

Variable qsort :
  (ScoredExercise -> ScoredExercise -> Z) -> list ScoredExercise -> list ScoredExercise.
Hypothesis qsort_permutes : forall cmp l, Permutation (qsort cmp l) l.
Variable g : Globals.
Variable req : SolverRequest.
Variable max_results : Z.
Hypothesis catalog_capacity : g_exercise_count g <= MAX_EXERCISES.

(** What is scored in a round is valid and not selected yet. *)
Lemma score_remaining_index s idx :
  In idx (map index (score_remaining g req s)) <->
  In idx (valid_indices g req) /\ is_selected (selected_mask s) idx = false.
Proof.
  unfold score_remaining. rewrite map_map. simpl. rewrite map_id, filter_In.
  now rewrite negb_true_iff.
Qed.

Lemma sorted_index s se :
  In se (qsort compare_scores (score_remaining g req s)) ->
  In (index se) (valid_indices g req) /\ is_selected (selected_mask s) (index se) = false.
Proof.
  intros Hin. apply score_remaining_index, in_map.
  eapply Permutation_in; [apply qsort_permutes|exact Hin].
Qed.

Lemma selection_ok_init : selection_ok g (solve_init req).
Proof. repeat split; simpl; constructor. Qed.

Lemma selection_ok_step s s' :
  selection_ok g s -> solve_round qsort g req s = Some s' -> selection_ok g s'.
Proof.
  intros (Hlen & Hnodup & Hmarked) Hround.
  apply solve_round_Some in Hround as (se & Hin & _ & ->).
  apply sorted_index in Hin as [Hvalid Hfree].
  apply valid_indices_range in Hvalid. unfold MAX_EXERCISES in *.
  unfold selection_ok, select; cbn [selected_mask out_indices].
  split; [unfold mark_selected; now rewrite length_insert|]. split.
  - apply NoDup_app. split; [assumption|]. split; [|apply NoDup_singleton].
    intros idx Hidx Hsame. apply list_elem_of_singleton in Hsame as ->.
    rewrite Forall_forall in Hmarked. destruct (Hmarked _ Hidx) as [_ Hsel].
    congruence.
  - apply Forall_app. split.
    + eapply Forall_impl; [exact Hmarked|]. intros idx [Hr Hsel].
      split; [assumption|]. apply is_selected_mark_keep; [lia|assumption].
    + apply Forall_singleton. split; [assumption|].
      apply is_selected_mark_same; [assumption|lia].
Qed.

Lemma selection_ok_loop rounds :
  selection_ok g (solve_loop qsort g req max_results rounds (solve_init req)).
Proof.
  apply solve_loop_ind; [|apply selection_ok_init].
  intros s s' Hs _. now apply selection_ok_step.
Qed.

Lemma selection_ok_final : selection_ok g (solve_final qsort g req max_results).
Proof.
  unfold solve_final.
  destruct (g_exercise_count g =? 0); [apply selection_ok_init|].
  destruct (Z.of_nat (length (valid_indices g req)) =? 0); [apply selection_ok_init|].
  apply selection_ok_loop.
Qed.

End SelectionFacts.

(** C7.  When [qsort] permutes its array and the catalog holds at most
    [MAX_EXERCISES] entries, no index occurs twice in the output of
    [solve]; after any number of rounds every index written so far is
    marked in [selected_mask] and is not scored again. *)
Theorem no_duplicate_selection
    (qsort : (ScoredExercise -> ScoredExercise -> Z)
             -> list ScoredExercise -> list ScoredExercise)
    (g : Globals) (req : SolverRequest) (max_results : Z) :
  (forall cmp l, Permutation (qsort cmp l) l) ->
  g_exercise_count g <= MAX_EXERCISES ->
  NoDup (map (fun e => fst (fst e)) (solve qsort g req max_results)) /\
  (forall rounds idx,
     let s := solve_loop qsort g req max_results rounds (solve_init req) in
     In idx (out_indices s) ->
     is_selected (selected_mask s) idx = true /\
     ~ In idx (map index (score_remaining g req s))).
Proof.
  intros Hperm Hcap. split.
  - rewrite solve_entries, map_map. simpl. rewrite map_id.
    apply (selection_ok_final qsort Hperm g req max_results Hcap).
  - intros rounds idx. cbv zeta. intros Hin.
    destruct (selection_ok_loop qsort Hperm g req max_results Hcap rounds)
      as (_ & _ & Hmarked).
    rewrite Forall_forall in Hmarked.
    destruct (Hmarked idx) as [_ Hsel]; [now apply list_elem_of_In|].
    split; [assumption|].
    intros Hscored. apply score_remaining_index in Hscored as [_ Hfree]. congruence.
Qed.

Lemma no_duplicate_selection_witness :
  NoDup (map (fun e => fst (fst e))
           (solve insertion_sort sample_globals sample_request MAX_EXERCISES)).
Proof.
  refine (proj1 (no_duplicate_selection insertion_sort sample_globals sample_request
                   MAX_EXERCISES insertion_sort_permutes _)).
  vm_compute. discriminate.
Defined.

(** C8.  In a call of [solve], the coverage mask after round [k + 1]
    contains every bit of the coverage mask after round [k]: no bit is
    cleared.  The state in which the loop ends is the one after
    [max_results] rounds, and stays the same for any further round. *)
Theorem coverage_monotone
    (qsort : (ScoredExercise -> ScoredExercise -> Z)
             -> list ScoredExercise -> list ScoredExercise)
    (g : Globals) (req : SolverRequest) (max_results : Z) (k : nat) :
  mask_subset
    (coverage_mask (solve_loop qsort g req max_results k (solve_init req)))
    (coverage_mask (solve_loop qsort g req max_results (S k) (solve_init req))) /\
  solve_loop qsort g req max_results (Z.to_nat max_results + k) (solve_init req)
  = solve_loop qsort g req max_results (Z.to_nat max_results) (solve_init req).
Proof.
  split; [|apply solve_loop_stable; lia].
  rewrite solve_loop_succ.
  generalize (solve_loop qsort g req max_results k (solve_init req)). intros s.
  simpl. destruct (loop_guard max_results s); [|intros i Hi; exact Hi].
  destruct (solve_round qsort g req s) as [s'|] eqn:Hround; [|intros i Hi; exact Hi].
  apply solve_round_Some in Hround as (se & _ & _ & ->).
  apply cover_superset.
Qed.

(** ** The exported functions *)

Lemma InitExercises_not_given g args :
  given_array args = false -> fst (InitExercises g args) = g.
Proof.
  destruct args as [|arg args]; [reflexivity|]. simpl. intros ->. reflexivity.
Qed.

Lemma InitExercises_given g args :
  given_array args = true ->
  g_initialized (fst (InitExercises g args)) = 1 /\
  g_exercise_count (fst (InitExercises g args))
  = Z.of_nat (length (take (Z.to_nat MAX_EXERCISES) (load_records args))).
Proof.
  destruct args as [|arg args]; [discriminate|]. simpl. intros ->. simpl.
  rewrite length_map. auto.
Qed.

(** What a call answers: the count when it succeeds, and otherwise one
    of the three errors. *)
Lemma InitExercises_answer g args :
  snd (InitExercises g args)
  = if load_succeeds args
    then inr (Z.of_nat (length (take (Z.to_nat MAX_EXERCISES) (load_records args))))
    else match args with
         | [] => inl ERR_EXPECTED_EXERCISES
         | arg :: _ => if napi_is_array arg then inl ERR_TO_OBJECT else inl ERR_EXPECTED_ARRAY
         end.
Proof.
  destruct args as [|arg args]; [reflexivity|]. unfold load_succeeds. simpl.
  destruct (napi_is_array arg); simpl; [|reflexivity].
  rewrite length_map. reflexivity.
Qed.

Lemma after_loads_snoc calls args :
  after_loads (calls ++ [args]) = fst (InitExercises (after_loads calls) args).
Proof. unfold after_loads. now rewrite fold_left_app. Qed.

Lemma last_given_snoc calls args :
  last_given (calls ++ [args])
  = if given_array args then Some args else last_given calls.
Proof.
  unfold last_given. rewrite List.filter_app. simpl.
  destruct (given_array args); [apply last_snoc|now rewrite app_nil_r].
Qed.

(** The globals after a sequence of loads, by the last call that was
    given an array. *)
Lemma after_loads_state calls :
  match last_given calls with
  | None => g_initialized (after_loads calls) = 0 /\ g_exercise_count (after_loads calls) = 0
  | Some args =>
      g_initialized (after_loads calls) = 1 /\
      g_exercise_count (after_loads calls)
      = Z.of_nat (length (take (Z.to_nat MAX_EXERCISES) (load_records args)))
  end.
Proof.
  induction calls as [|args calls IH] using rev_ind; [split; reflexivity|].
  rewrite last_given_snoc, after_loads_snoc.
  destruct (given_array args) eqn:Hload.
  - apply InitExercises_given, Hload.
  - now rewrite InitExercises_not_given.
Qed.

Lemma last_given_None calls :
  last_given calls = None <-> Forall (fun args => given_array args = false) calls.
Proof.
  unfold last_given. rewrite last_None. induction calls as [|args calls IH]; simpl.
  - split; [constructor|reflexivity].
  - rewrite Forall_cons. destruct (given_array args).
    + split; [discriminate|intros [? _]; discriminate].
    + rewrite IH. tauto.
Qed.

(** When every call that is given an array succeeds, the calls given
    an array are the successful ones. *)
Lemma given_loads_succeed calls :
  Forall (fun args => given_array args = true -> load_succeeds args = true) calls ->
  List.filter load_succeeds calls = List.filter given_array calls.
Proof.
  induction 1 as [|args calls Hargs _ IH]; [reflexivity|]. simpl. rewrite IH.
  unfold load_succeeds in *. destruct (given_array args); [|reflexivity].
  now rewrite (Hargs eq_refl).
Qed.

(** The loads keep the count within the capacity of the array. *)
Lemma after_loads_capacity calls :
  0 <= g_exercise_count (after_loads calls) <= MAX_EXERCISES.
Proof.
  pose proof (after_loads_state calls) as Hstate.
  destruct (last_given calls) as [args|].
  - destruct Hstate as [_ ->]. rewrite length_take. unfold MAX_EXERCISES. lia.
  - destruct Hstate as [_ ->]. unfold MAX_EXERCISES. lia.
Qed.

Lemma take_capacity_nil {A} (l : list A) :
  Z.of_nat (length (take (Z.to_nat MAX_EXERCISES) l)) = 0 <-> l = [].
Proof.
  destruct l as [|x l]; [split; reflexivity|].
  split; [|discriminate]. unfold MAX_EXERCISES. simpl. lia.
Qed.

Lemma Solve_guard
    (qsort : (ScoredExercise -> ScoredExercise -> Z)
             -> list ScoredExercise -> list ScoredExercise)
    (g : Globals) (args : list js_value) :
  Solve qsort g args = inl ERR_NOT_INITIALIZED <->
  g_initialized g = 0 \/ g_exercise_count g = 0.
Proof.
  unfold Solve.
  destruct (Z.eqb_spec (g_initialized g) 0) as [Hi|Hi]; simpl; [tauto|].
  destruct (Z.eqb_spec (g_exercise_count g) 0) as [Hc|Hc]; [tauto|].
  split; [|tauto].
  destruct args as [|arg args]; [discriminate|].
  destruct (to_object arg); discriminate.
Qed.

(** C5, as amended.  After any sequence of [InitExercises] calls,
    [Solve] throws its "not initialized" error exactly when no call has
    been given an array or the last call that was given one was given
    an empty one: such a call sets the count and the flag also when it
    throws.  When every call that is given an array succeeds, this is:
    no call has succeeded, or the last successful call handed over no
    record. *)
Theorem Solve_not_initialized_iff
    (qsort : (ScoredExercise -> ScoredExercise -> Z)
             -> list ScoredExercise -> list ScoredExercise)
    (calls : list (list js_value)) (args : list js_value) :
  (Solve qsort (after_loads calls) args = inl ERR_NOT_INITIALIZED <->
   Forall (fun load => given_array load = false) calls \/
   exists load, last_given calls = Some load /\ load_records load = []) /\
  (Forall (fun load => given_array load = true -> load_succeeds load = true) calls ->
   (Solve qsort (after_loads calls) args = inl ERR_NOT_INITIALIZED <->
    Forall (fun load => load_succeeds load = false) calls \/
    exists load, last_load calls = Some load /\ load_records load = [])).
Proof.
  assert (Hgiven : Solve qsort (after_loads calls) args = inl ERR_NOT_INITIALIZED <->
            Forall (fun load => given_array load = false) calls \/
            exists load, last_given calls = Some load /\ load_records load = []).
  { rewrite Solve_guard, <- last_given_None.
    pose proof (after_loads_state calls) as Hstate.
    destruct (last_given calls) as [load|].
    - destruct Hstate as [-> Hcount]. rewrite Hcount, take_capacity_nil. split.
      + intros [?|Hnil]; [discriminate|]. right. exists load. auto.
      + intros [?|(load' & [= <-] & Hnil)]; [discriminate|now right].
    - destruct Hstate as [-> _]. split; auto. }
  split; [exact Hgiven|].
  intros Hall. rewrite Hgiven. unfold last_load, last_given.
  rewrite (given_loads_succeed calls Hall).
  assert (Hnone : Forall (fun load => given_array load = false) calls
                  <-> Forall (fun load => load_succeeds load = false) calls).
  { rewrite Forall_forall in Hall. rewrite !Forall_forall.
    split; intros Hf load Hin.
    - unfold load_succeeds. now rewrite (Hf load Hin).
    - destruct (given_array load) eqn:Hg; [|reflexivity].
      rewrite <- (Hf load Hin). symmetry. now apply Hall. }
  now rewrite Hnone.
Qed.

Lemma Solve_not_initialized_iff_witness :
  Solve insertion_sort (after_loads [[JsArray []]]) [] = inl ERR_NOT_INITIALIZED <->
  Forall (fun load => load_succeeds load = false) [[JsArray []]] \/
  exists load, last_load [[JsArray []]] = Some load /\ load_records load = [].
Proof.
  refine (proj2 (Solve_not_initialized_iff insertion_sort [[JsArray []]] []) _).
  repeat constructor.
Defined.

(** C5, the claim as stated fails: a load of the empty array succeeds
    with count 0, and [Solve] then throws instead of returning an empty
    array. *)
Lemma empty_catalog_counterexample :
  snd (InitExercises initial_globals [JsArray []]) = inr 0 /\
  Solve insertion_sort (after_loads [[JsArray []]]) [JsObject sample_object]
  = inl ERR_NOT_INITIALIZED.
Proof. split; reflexivity. Qed.

(** A load that throws for an element without properties has set the
    count and the flag: [Solve] then gets past its guard. *)
Example throwing_load_sets_globals :
  snd (InitExercises initial_globals [JsArray [JsUndefined]]) = inl ERR_TO_OBJECT /\
  g_exercise_count (after_loads [[JsArray [JsUndefined]]]) = 1 /\
  g_initialized (after_loads [[JsArray [JsUndefined]]]) = 1 /\
  Solve insertion_sort (after_loads [[JsArray [JsUndefined]]]) [JsObject sample_object]
  = inr [].
Proof. repeat split; vm_compute; reflexivity. Qed.

Lemma read_request_agree (p1 p2 : gmap string js_value) :
  (forall k, k <> "weights" -> p1 !! k = p2 !! k) ->
  read_request p1 = read_request p2.
Proof.
  intros Hagree. unfold read_request, read_excluded, int32_property,
    napi_get_named_property.
  rewrite !Hagree by discriminate. reflexivity.
Qed.

(** C6.  Two request objects that agree on every property but
    [weights] get the same answer from [Solve], and the request that
    [Solve] builds carries the default weights. *)
Theorem Solve_ignores_weights
    (qsort : (ScoredExercise -> ScoredExercise -> Z)
             -> list ScoredExercise -> list ScoredExercise)
    (g : Globals) (p1 p2 : gmap string js_value) (rest : list js_value) :
  (forall k, k <> "weights" -> p1 !! k = p2 !! k) ->
  Solve qsort g (JsObject p1 :: rest) = Solve qsort g (JsObject p2 :: rest) /\
  weights (read_request p1) = default_weights /\
  weights (read_request p2) = default_weights.
Proof.
  intros Hagree. split; [|split; reflexivity].
  unfold Solve. cbn [to_object]. now rewrite (read_request_agree p1 p2 Hagree).
Qed.

Lemma Solve_ignores_weights_witness :
  Solve insertion_sort sample_globals [JsObject sample_object]
  = Solve insertion_sort sample_globals
      [JsObject (<["weights" := sample_weights]> sample_object)].
Proof.
  refine (proj1 (Solve_ignores_weights insertion_sort sample_globals sample_object
                   (<["weights" := sample_weights]> sample_object) [] _)).
  intros k Hk. symmetry. apply lookup_insert_ne. congruence.
Defined.

Lemma fold_left_ext {A B} (f h : A -> B -> A) (l : list B) (a : A) :
  (forall x y, f x y = h x y) -> fold_left f l a = fold_left h l a.
Proof.
  intros Hfh. revert a. induction l as [|y l IH]; intros a; simpl; [reflexivity|].
  now rewrite Hfh, IH.
Qed.

(** The score reads the goals, the fitness level, the two recovery
    masks and the weights of a request, and nothing else. *)
Lemma score_exercise_fields ex r1 r2 coverage :
  goals_mask r1 = goals_mask r2 -> fitness_level r1 = fitness_level r2 ->
  recent_24h_muscles_mask r1 = recent_24h_muscles_mask r2 ->
  recent_48h_muscles_mask r1 = recent_48h_muscles_mask r2 ->
  weights r1 = weights r2 ->
  score_exercise ex r1 coverage = score_exercise ex r2 coverage.
Proof.
  intros Hg Hf H24 H48 Hw. unfold score_exercise.
  rewrite Hg, Hf, Hw.
  rewrite (fold_left_ext (score_goal ex r1) (score_goal ex r2))
    by (intros; unfold score_goal; now rewrite Hg, Hw).
  rewrite (fold_left_ext (score_recovery ex r1) (score_recovery ex r2))
    by (intros; unfold score_recovery; now rewrite H24, H48, Hw).
  rewrite (fold_left_ext (score_coverage ex r1 coverage) (score_coverage ex r2 coverage))
    by (intros; unfold score_coverage; now rewrite Hw).
  reflexivity.
Qed.

Lemma after_loads_flag calls :
  g_initialized (after_loads calls) = 0 <->
  Forall (fun load => given_array load = false) calls.
Proof.
  rewrite <- last_given_None. pose proof (after_loads_state calls) as Hstate.
  destruct (last_given calls) as [load|].
  - destruct Hstate as [-> _]. split; discriminate.
  - destruct Hstate as [-> _]. split; reflexivity.
Qed.

(** C9, as amended.  Once a call of [InitExercises] has set the flag,
    [ScoreBatch] returns, for a request that has properties, one score
    for each index: zero for an index that is negative or not below the
    catalog size, and otherwise the score of that exercise for the
    request with an empty coverage mask, whether or not the exercise
    passes the hard filters.  Before that it throws.  The flag is set
    by the first call that is given an array, also when that call
    throws. *)
Theorem ScoreBatch_scores (g : Globals) (indices : list Z) (object : js_value) :
  (g_initialized g <> 0 ->
   forall props, to_object object = Some props ->
   exists scores,
     ScoreBatch g indices object = inr scores /\
     length scores = length indices /\
     forall i idx, indices !! i = Some idx ->
       scores !! i =
       Some (if (0 <=? idx) && (idx <? g_exercise_count g)
             then score_exercise (exercise_at g idx) (read_request props) 0
             else zero)) /\
  (g_initialized g = 0 -> ScoreBatch g indices object = inl ERR_SCORE_NOT_INITIALIZED) /\
  (forall calls,
     g_initialized (after_loads calls) = 0 <->
     Forall (fun load => given_array load = false) calls).
Proof.
  unfold ScoreBatch. split; [|split].
  - intros Hinit props Hprops.
    destruct (Z.eqb_spec (g_initialized g) 0); [contradiction|]. rewrite Hprops.
    eexists. split; [reflexivity|]. split; [apply length_map|].
    intros i idx Hi. rewrite list_lookup_fmap, Hi.
    change (Some (score_one g (read_score_request props) idx) = Some
      (if (0 <=? idx) && (idx <? g_exercise_count g)
       then score_exercise (exercise_at g idx) (read_request props) 0 else zero)).
    apply (f_equal Some). unfold score_one. destruct ((0 <=? idx) && (idx <? g_exercise_count g)); [|reflexivity].
    apply score_exercise_fields; reflexivity.
  - intros ->. reflexivity.
  - apply after_loads_flag.
Qed.

Lemma ScoreBatch_scores_witness :
  exists scores,
    ScoreBatch sample_globals [0; -1; 2] (JsObject sample_object) = inr scores /\
    length scores = 3%nat.
Proof.
  destruct (proj1 (ScoreBatch_scores sample_globals [0; -1; 2] (JsObject sample_object)))
    with (props := sample_object) as (scores & Hscores & Hlen & _).
  - vm_compute. discriminate.
  - reflexivity.
  - exists scores. split; assumption.
Defined.

(** C9, the claim as stated fails: before any load the catalog size is
    0, so index 0 is out of range, and [ScoreBatch] throws instead of
    returning a zero. *)
Lemma ScoreBatch_uninitialized_counterexample :
  g_exercise_count initial_globals = 0 /\
  ScoreBatch initial_globals [0] (JsObject sample_object) = inl ERR_SCORE_NOT_INITIALIZED.
Proof. split; reflexivity. Qed.

(** * Further properties of the code *)

(** ** More on the selection loop *)

Lemma valid_indices_spec g req idx :
  In idx (valid_indices g req) <->
  0 <= idx < g_exercise_count g /\ passes_hard_filters (exercise_at g idx) req = true.
Proof.
  unfold valid_indices. rewrite filter_In, <- list_elem_of_In, elem_of_seqZ.
  split; intros [Hr Hp]; (split; [lia|assumption]).
Qed.

Lemma find_first {A} (f : A -> bool) l x :
  List.find f l = Some x ->
  exists before after,
    l = before ++ x :: after /\ Forall (fun y => f y = false) before /\ f x = true.
Proof.
  induction l as [|y l IH]; simpl; [discriminate|].
  destruct (f y) eqn:Hy.
  - intros [= ->]. exists [], l. repeat split; [constructor|assumption].
  - intros Hfind. destruct (IH Hfind) as (before & after & -> & Hbefore & Hx).
    exists (y :: before), after. repeat split; [constructor|]; assumption.
Qed.

Section OutputFacts.

Variable qsort :
  (ScoredExercise -> ScoredExercise -> Z) -> list ScoredExercise -> list ScoredExercise.
Variable g : Globals.
Variable req : SolverRequest.
Variable max_results : Z.

Lemma count_ok_loop rounds :
  let s := solve_loop qsort g req max_results rounds (solve_init req) in
  result_count s = Z.of_nat (length (out_indices s)) /\
  result_count s <= Z.max 0 max_results.
Proof.
  apply solve_loop_ind; [|simpl; lia].
  intros s s' [Hlen Hmax] Hguard Hround.
  apply solve_round_Some in Hround as (se & _ & _ & ->).
  unfold loop_guard in Hguard. apply andb_true_iff in Hguard as [_ Hlt].
  apply Z.ltb_lt in Hlt.
  unfold select; cbn [result_count out_indices]. rewrite length_app. simpl. lia.
Qed.

Lemma count_ok_final :
  let s := solve_final qsort g req max_results in
  result_count s = Z.of_nat (length (out_indices s)) /\
  result_count s <= Z.max 0 max_results.
Proof.
  unfold solve_final.
  destruct (g_exercise_count g =? 0); [simpl; lia|].
  destruct (Z.of_nat (length (valid_indices g req)) =? 0); [simpl; lia|].
  apply count_ok_loop.
Qed.

End OutputFacts.

(** X1.  [solve] returns the number of entries it has written to each
    of its three output arrays, and never more than [max_results]. *)
Theorem solve_output_bounded
    (qsort : (ScoredExercise -> ScoredExercise -> Z)
             -> list ScoredExercise -> list ScoredExercise)
    (g : Globals) (req : SolverRequest) (max_results : Z) :
  let final := solve_final qsort g req max_results in
  result_count final = Z.of_nat (length (solve qsort g req max_results)) /\
  length (out_indices final) = length (solve qsort g req max_results) /\
  length (out_sets final) = length (solve qsort g req max_results) /\
  length (out_reps final) = length (solve qsort g req max_results) /\
  Z.of_nat (length (solve qsort g req max_results)) <= Z.max 0 max_results.
Proof.
  intros final.
  destruct (count_ok_final qsort g req max_results) as [Hlen Hmax]. fold final in Hlen, Hmax.
  destruct (outputs_ok_final qsort g req max_results) as [Hsets Hreps].
  fold final in Hsets, Hreps.
  rewrite solve_entries, length_map. fold final.
  rewrite Hsets, Hreps, !length_replicate. repeat split; lia.
Qed.

Section EligibleFacts.

Variable qsort :
  (ScoredExercise -> ScoredExercise -> Z) -> list ScoredExercise -> list ScoredExercise.
Hypothesis qsort_permutes : forall cmp l, Permutation (qsort cmp l) l.
Variable g : Globals.
Variable req : SolverRequest.
Variable max_results : Z.

Lemma outputs_valid_loop rounds :
  Forall (fun idx => In idx (valid_indices g req))
    (out_indices (solve_loop qsort g req max_results rounds (solve_init req))).
Proof.
  apply solve_loop_ind; [|constructor].
  intros s s' Hs _ Hround.
  apply solve_round_Some in Hround as (se & Hin & _ & ->).
  apply (sorted_index qsort qsort_permutes) in Hin as [Hvalid _].
  unfold select; cbn [out_indices]. apply Forall_app. split; [assumption|].
  now apply Forall_singleton.
Qed.

Lemma outputs_valid_final :
  Forall (fun idx => In idx (valid_indices g req))
    (out_indices (solve_final qsort g req max_results)).
Proof.
  unfold solve_final.
  destruct (g_exercise_count g =? 0); [constructor|].
  destruct (Z.of_nat (length (valid_indices g req)) =? 0); [constructor|].
  apply outputs_valid_loop.
Qed.

(** A round that breaks leaves no valid exercise that is both free
    and short enough. *)
Lemma solve_round_None s idx :
  solve_round qsort g req s = None ->
  In idx (valid_indices g req) -> is_selected (selected_mask s) idx = false ->
  time_remaining s < time_needed g req idx.
Proof.
  intros Hround Hvalid Hfree.
  assert (Hscored : In idx (map index (score_remaining g req s)))
    by (apply score_remaining_index; auto).
  apply in_map_iff in Hscored as (se & <- & Hse).
  unfold solve_round in Hround.
  destruct (Z.eqb_spec (Z.of_nat (length (score_remaining g req s))) 0) as [Hz|_].
  { destruct (score_remaining g req s); [contradiction|simpl in Hz; lia]. }
  destruct (List.find _ _) eqn:Hfind; [discriminate|].
  eapply find_none in Hfind.
  - apply Z.leb_gt in Hfind. exact Hfind.
  - eapply Permutation_in; [symmetry; apply qsort_permutes|exact Hse].
Qed.

End EligibleFacts.

(** X2.  When [qsort] permutes its array, every index in the output of
    [solve] is an index of the catalog whose exercise passes the hard
    filters for the request. *)
Theorem solve_outputs_eligible
    (qsort : (ScoredExercise -> ScoredExercise -> Z)
             -> list ScoredExercise -> list ScoredExercise)
    (g : Globals) (req : SolverRequest) (max_results : Z) :
  (forall cmp l, Permutation (qsort cmp l) l) ->
  Forall (fun e => 0 <= fst (fst e) < g_exercise_count g /\
                   passes_hard_filters (exercise_at g (fst (fst e))) req = true)
         (solve qsort g req max_results).
Proof.
  intros Hperm. rewrite solve_entries, Forall_map.
  eapply Forall_impl; [apply (outputs_valid_final qsort Hperm)|].
  intros idx Hvalid. simpl. now apply valid_indices_spec.
Qed.

Lemma solve_outputs_eligible_witness :
  Forall (fun e => 0 <= fst (fst e) < g_exercise_count sample_globals /\
                   passes_hard_filters (exercise_at sample_globals (fst (fst e)))
                     sample_request = true)
         (solve insertion_sort sample_globals sample_request MAX_EXERCISES).
Proof.
  exact (solve_outputs_eligible insertion_sort sample_globals sample_request
           MAX_EXERCISES insertion_sort_permutes).
Defined.

(** X3.  When [qsort] permutes its array and the catalog is within its
    capacity, [solve] returns at most as many entries as there are
    exercises that pass the hard filters, so never more than the
    catalog holds. *)
Theorem solve_output_at_most_eligible
    (qsort : (ScoredExercise -> ScoredExercise -> Z)
             -> list ScoredExercise -> list ScoredExercise)
    (g : Globals) (req : SolverRequest) (max_results : Z) :
  (forall cmp l, Permutation (qsort cmp l) l) ->
  g_exercise_count g <= MAX_EXERCISES ->
  (length (solve qsort g req max_results) <= length (valid_indices g req))%nat /\
  Z.of_nat (length (valid_indices g req)) <= Z.max 0 (g_exercise_count g).
Proof.
  intros Hperm Hcap. split.
  - rewrite solve_entries, length_map.
    destruct (selection_ok_final qsort Hperm g req max_results Hcap) as (_ & Hnodup & _).
    apply submseteq_length, NoDup_submseteq; [assumption|].
    intros idx Hidx. apply list_elem_of_In.
    pose proof (outputs_valid_final qsort Hperm g req max_results) as Hvalid.
    rewrite Forall_forall in Hvalid. now apply Hvalid.
  - unfold valid_indices.
    pose proof (filter_length_le
                  (fun i => passes_hard_filters (exercise_at g i) req)
                  (seqZ 0 (g_exercise_count g))) as Hle.
    rewrite length_seqZ in Hle. lia.
Qed.

Lemma solve_output_at_most_eligible_witness :
  (length (solve insertion_sort sample_globals sample_request MAX_EXERCISES)
   <= length (valid_indices sample_globals sample_request))%nat.
Proof.
  refine (proj1 (solve_output_at_most_eligible insertion_sort sample_globals
                   sample_request MAX_EXERCISES insertion_sort_permutes _)).
  vm_compute. discriminate.
Defined.

(** X4.  When [qsort] permutes its array and the loop of [solve] ends
    with more than 60 seconds left and fewer than [max_results]
    entries, no valid exercise that is still free fits into the
    remaining time: the loop does not stop while something fits. *)
Theorem solve_stops_when_nothing_fits
    (qsort : (ScoredExercise -> ScoredExercise -> Z)
             -> list ScoredExercise -> list ScoredExercise)
    (g : Globals) (req : SolverRequest) (max_results : Z) (idx : Z) :
  (forall cmp l, Permutation (qsort cmp l) l) ->
  let final := solve_loop qsort g req max_results (Z.to_nat max_results) (solve_init req) in
  loop_guard max_results final = true ->
  In idx (valid_indices g req) ->
  is_selected (selected_mask final) idx = false ->
  time_remaining final < time_needed g req idx.
Proof.
  intros Hperm final Hguard Hvalid Hfree.
  assert (Hfix : solve_loop qsort g req max_results 1 final = final).
  { unfold final. rewrite <- solve_loop_succ. apply solve_loop_enough. simpl. lia. }
  simpl in Hfix. rewrite Hguard in Hfix.
  destruct (solve_round qsort g req final) as [s'|] eqn:Hround.
  - exfalso. apply solve_round_Some in Hround as (se & _ & _ & ->).
    apply (f_equal result_count) in Hfix. simpl in Hfix. lia.
  - eapply solve_round_None; eassumption.
Qed.

Lemma solve_stops_when_nothing_fits_witness :
  time_remaining
    (solve_loop insertion_sort sample_globals sample_request MAX_EXERCISES
       (Z.to_nat MAX_EXERCISES) (solve_init sample_request))
  < time_needed sample_globals sample_request 1.
Proof.
  refine (solve_stops_when_nothing_fits insertion_sort sample_globals sample_request
            MAX_EXERCISES 1 insertion_sort_permutes _ _ _).
  - vm_compute. reflexivity.
  - apply valid_indices_spec. vm_compute. repeat split; discriminate.
  - vm_compute. reflexivity.
Defined.

(** X5.  A round that selects takes the first entry of the sorted
    array whose estimated time fits: every entry before it needs more
    than the time remaining, and when the array is sorted for
    [compare_scores] no later entry compares before the one taken. *)
Theorem solve_round_first_fit
    (qsort : (ScoredExercise -> ScoredExercise -> Z)
             -> list ScoredExercise -> list ScoredExercise)
    (g : Globals) (req : SolverRequest) (s s' : SolveState) :
  solve_round qsort g req s = Some s' ->
  exists before se after,
    qsort compare_scores (score_remaining g req s) = before ++ se :: after /\
    Forall (fun c => time_remaining s < time_needed g req (index c)) before /\
    time_needed g req (index se) <= time_remaining s /\
    s' = select g req s (index se) /\
    (StronglySorted (fun a b => compare_scores a b <= 0)
       (qsort compare_scores (score_remaining g req s)) ->
     Forall (fun c => compare_scores se c <= 0) after).
Proof.
  unfold solve_round.
  destruct (Z.of_nat (length (score_remaining g req s)) =? 0); [discriminate|].
  destruct (List.find _ _) as [se|] eqn:Hfind; [|discriminate].
  intros [= <-]. apply find_first in Hfind as (before & after & Heq & Hbefore & Hfit).
  exists before, se, after. rewrite Heq.
  split; [reflexivity|]. split.
  { eapply Forall_impl; [exact Hbefore|]. intros c Hc. now apply Z.leb_gt in Hc. }
  split; [now apply Z.leb_le|]. split; [reflexivity|].
  intros Hsorted. clear Heq Hbefore.
  induction before as [|c before IH]; simpl in Hsorted.
  - apply StronglySorted_inv in Hsorted as [_ Hall].
    rewrite List.Forall_forall in Hall. apply Forall_forall.
    intros c Hc. apply Hall. now apply list_elem_of_In.
  - apply StronglySorted_inv in Hsorted as [Hrest _]. now apply IH.
Qed.

Lemma solve_round_first_fit_witness :
  exists before se after,
    insertion_sort compare_scores
      (score_remaining sample_globals sample_request (solve_init sample_request))
    = before ++ se :: after /\
    time_needed sample_globals sample_request (index se)
    <= time_remaining (solve_init sample_request).
Proof.
  destruct (solve_round_first_fit insertion_sort sample_globals sample_request
              (solve_init sample_request)
              (select sample_globals sample_request (solve_init sample_request) 0))
    as (before & se & after & Heq & _ & Hfit & _).
  - vm_compute. reflexivity.
  - exists before, se, after. split; assumption.
Defined.

(** ** Bits of the two masks *)

Lemma testbit_shl32_1 b m : 0 <= m < 32 -> Z.testbit (shl32 1 b) m = (m =? b mod 32).
Proof.
  intros Hm. rewrite <- shl32_mod.
  pose proof (Z.mod_pos_bound b 32 ltac:(lia)) as Hc.
  generalize dependent (b mod 32). clear b. intros b Hb.
  destruct (Z_lt_le_dec b 31) as [Hlow|Hhigh].
  - rewrite shl32_1_low, Z.pow2_bits_eqb by lia. apply Z.eqb_sym.
  - replace b with 31 by lia. rewrite shl32_1_31.
    destruct (Z_lt_le_dec m 31).
    + replace INT_MIN with (- 2 ^ 31) by reflexivity.
      rewrite (Z.bits_opp (2 ^ 31)) by lia.
      replace (Z.pred (2 ^ 31)) with (Z.ones 31) by reflexivity.
      rewrite Z.ones_spec_low by lia. symmetry. apply Z.eqb_neq. lia.
    + replace m with 31 by lia. reflexivity.
Qed.

Lemma has_bit_lor w c k : has_bit (Z.lor w c) k = has_bit w k || has_bit c k.
Proof.
  unfold has_bit. rewrite Z.land_lor_distr_l.
  destruct (Z.eqb_spec (Z.land w (shl32 1 k)) 0) as [->|Hw]; simpl.
  - now rewrite Z.lor_0_l.
  - apply negb_true_iff, Z.eqb_neq. intros Hz. apply Z.lor_eq_0_iff in Hz. tauto.
Qed.

Lemma has_bit_shl32_1 b k : 0 <= b < 32 -> 0 <= k < 32 -> has_bit (shl32 1 b) k = (k =? b).
Proof.
  intros Hb Hk. unfold shl32 at 1.
  rewrite has_bit_testbit by apply wrap32_range.
  fold (shl32 1 b). rewrite testbit_shl32_1, !Z.mod_small by (try apply Z.mod_pos_bound; lia).
  reflexivity.
Qed.

Lemma is_selected_zeros idx : is_selected (replicate 16 0) idx = false.
Proof.
  unfold is_selected, arr_get.
  destruct (div32 idx 32 <? 0); [apply has_bit_zero|].
  destruct (replicate 16 0 !! Z.to_nat (div32 idx 32)) as [w|] eqn:Hw; simpl.
  - apply lookup_replicate in Hw as [-> _]. apply has_bit_zero.
  - apply has_bit_zero.
Qed.

(** Marking index [i] sets its bit and no other. *)
Lemma is_selected_mark mask i j :
  length mask = 16%nat -> 0 <= i < 512 -> 0 <= j < 512 ->
  is_selected (mark_selected mask i) j = is_selected mask j || (j =? i).
Proof.
  intros Hlen Hi Hj. unfold is_selected, mark_selected, div32, rem32.
  rewrite !Z.quot_div_nonneg, !Z.rem_mod_nonneg by lia.
  assert (Hbi : 0 <= i / 32 < 16) by (Z.to_euclidean_division_equations; lia).
  assert (Hbj : 0 <= j / 32 < 16) by (Z.to_euclidean_division_equations; lia).
  pose proof (Z.mod_pos_bound i 32 ltac:(lia)) as Hmi.
  pose proof (Z.mod_pos_bound j 32 ltac:(lia)) as Hmj.
  destruct (Z.eq_dec (i / 32) (j / 32)) as [Heq|Hne].
  - rewrite <- Heq, arr_get_insert_same, has_bit_lor, has_bit_shl32_1 by lia.
    f_equal. destruct (Z.eqb_spec (j mod 32) (i mod 32)) as [Hm|Hm];
      destruct (Z.eqb_spec j i) as [Hji|Hji]; try reflexivity; exfalso.
    + apply Hji. rewrite (Z.div_mod j 32), (Z.div_mod i 32) by lia. lia.
    + apply Hm. now rewrite Hji.
  - rewrite arr_get_insert_other by lia.
    destruct (Z.eqb_spec j i) as [->|_]; [contradiction|now rewrite orb_false_r].
Qed.

Lemma cover_fold_testbit ex (ms : list Z) cov b :
  0 <= b < 32 ->
  Z.testbit
    (fold_left
       (fun c k => if fgt (activation ex k) zero then Z.lor c (shl32 1 k) else c) ms cov) b
  = Z.testbit cov b || existsb (fun k => (b =? k mod 32) && fgt (activation ex k) zero) ms.
Proof.
  intros Hb. revert cov. induction ms as [|k ms IH]; intros cov; simpl.
  - now rewrite orb_false_r.
  - rewrite IH. destruct (fgt (activation ex k) zero).
    + rewrite Z.lor_spec, testbit_shl32_1, andb_true_r by lia. now rewrite orb_assoc.
    + now rewrite andb_false_r.
Qed.

(** A bit of the new coverage is a bit of the old one or the bit of a
    muscle that the exercise activates. *)
Lemma testbit_cover ex cov b :
  0 <= b < 32 ->
  Z.testbit (cover ex cov) b = true <->
  Z.testbit cov b = true \/ activates_bit ex b.
Proof.
  intros Hb. unfold cover. rewrite cover_fold_testbit, orb_true_iff by assumption.
  apply or_iff_compat_l. rewrite existsb_exists. unfold activates_bit.
  split.
  - intros (m & Hin & Hm). apply list_elem_of_In, elem_of_seqZ in Hin.
    apply andb_true_iff in Hm as [Hbm Hact]. apply Z.eqb_eq in Hbm.
    exists m. repeat split; (lia || assumption).
  - intros (m & Hm & Hbm & Hact). exists m. split.
    + apply list_elem_of_In, elem_of_seqZ. lia.
    + rewrite Hact, andb_true_r. apply Z.eqb_eq. lia.
Qed.

Section MaskFacts.

Variable qsort :
  (ScoredExercise -> ScoredExercise -> Z) -> list ScoredExercise -> list ScoredExercise.
Variable g : Globals.
Variable req : SolverRequest.
Variable max_results : Z.

Lemma coverage_exact_loop rounds b :
  0 <= b < 32 ->
  let s := solve_loop qsort g req max_results rounds (solve_init req) in
  Z.testbit (coverage_mask s) b = true <->
  exists idx, In idx (out_indices s) /\ activates_bit (exercise_at g idx) b.
Proof.
  intros Hb. apply solve_loop_ind.
  - intros s s' Hs _ Hround.
    apply solve_round_Some in Hround as (se & _ & _ & ->).
    unfold select; cbn [coverage_mask out_indices].
    rewrite testbit_cover, Hs by assumption. split.
    + intros [(idx & Hin & Hact)|Hact].
      * exists idx. split; [apply in_or_app; now left|assumption].
      * exists (index se). split; [apply in_or_app; right; now left|assumption].
    + intros (idx & Hin & Hact). apply in_app_or in Hin as [Hin|[<-|[]]]; eauto.
  - simpl. rewrite Z.bits_0. split; [discriminate|intros (_ & [] & _)].
Qed.

Hypothesis qsort_permutes : forall cmp l, Permutation (qsort cmp l) l.
Hypothesis catalog_capacity : g_exercise_count g <= MAX_EXERCISES.

Lemma marks_exact_loop rounds :
  let s := solve_loop qsort g req max_results rounds (solve_init req) in
  length (selected_mask s) = 16%nat /\
  forall idx, 0 <= idx < 512 ->
    (is_selected (selected_mask s) idx = true <-> In idx (out_indices s)).
Proof.
  apply solve_loop_ind.
  - intros s s' [Hlen Hs] _ Hround.
    apply solve_round_Some in Hround as (se & Hin & _ & ->).
    apply (sorted_index qsort qsort_permutes) in Hin as [Hvalid _].
    apply valid_indices_range in Hvalid. unfold MAX_EXERCISES in *.
    unfold select; cbn [selected_mask out_indices].
    split; [unfold mark_selected; now rewrite length_insert|].
    intros idx Hidx. rewrite is_selected_mark, orb_true_iff, Hs, Z.eqb_eq by lia.
    rewrite in_app_iff. simpl. intuition congruence.
  - split; [reflexivity|]. intros idx _. simpl. rewrite is_selected_zeros.
    split; [discriminate|contradiction].
Qed.

End MaskFacts.

(** X6.  After any number of rounds of [solve], bit [b] of
    [coverage_mask] is set exactly when one of the exercises selected
    so far has a positive activation of a muscle whose index is [b]
    modulo 32: the muscles 32 to 49 are recorded in the bits 0 to 17,
    with the muscles 0 to 17. *)
Theorem coverage_is_union
    (qsort : (ScoredExercise -> ScoredExercise -> Z)
             -> list ScoredExercise -> list ScoredExercise)
    (g : Globals) (req : SolverRequest) (max_results : Z) (rounds : nat) (b : Z) :
  0 <= b < 32 ->
  let s := solve_loop qsort g req max_results rounds (solve_init req) in
  Z.testbit (coverage_mask s) b = true <->
  exists idx, In idx (out_indices s) /\ activates_bit (exercise_at g idx) b.
Proof. apply coverage_exact_loop. Qed.

Lemma coverage_is_union_witness :
  Z.testbit
    (coverage_mask (solve_loop insertion_sort sample_globals sample_request MAX_EXERCISES
                      1 (solve_init sample_request))) 1 = true <->
  exists idx,
    In idx (out_indices (solve_loop insertion_sort sample_globals sample_request
                           MAX_EXERCISES 1 (solve_init sample_request))) /\
    activates_bit (exercise_at sample_globals idx) 1.
Proof.
  refine (coverage_is_union insertion_sort sample_globals sample_request MAX_EXERCISES
            1 1 _).
  lia.
Defined.

(** Muscle 32 is recorded in bit 0 of the coverage mask, and is scored
    as covered when that bit is set. *)
Example muscle_32_covered_in_bit_0 :
  cover high_muscle_exercise 0 = 1 /\
  score_exercise high_muscle_exercise sample_request 0 = of_int 20 /\
  score_exercise high_muscle_exercise sample_request 1 = of_int 5.
Proof. repeat split; vm_compute; reflexivity. Qed.

(** X7.  When [qsort] permutes its array and the catalog is within its
    capacity, after any number of rounds the bits of [selected_mask]
    are exactly the indices written to the output: an index below 512
    is marked if and only if it has been selected. *)
Theorem selected_mask_exact
    (qsort : (ScoredExercise -> ScoredExercise -> Z)
             -> list ScoredExercise -> list ScoredExercise)
    (g : Globals) (req : SolverRequest) (max_results : Z) (rounds : nat) (idx : Z) :
  (forall cmp l, Permutation (qsort cmp l) l) ->
  g_exercise_count g <= MAX_EXERCISES ->
  0 <= idx < 512 ->
  let s := solve_loop qsort g req max_results rounds (solve_init req) in
  is_selected (selected_mask s) idx = true <-> In idx (out_indices s).
Proof.
  intros Hperm Hcap Hidx.
  apply (marks_exact_loop qsort g req max_results Hperm Hcap rounds), Hidx.
Qed.

Lemma selected_mask_exact_witness :
  is_selected
    (selected_mask (solve_loop insertion_sort sample_globals sample_request MAX_EXERCISES
                      1 (solve_init sample_request))) 1 = true <->
  In 1 (out_indices (solve_loop insertion_sort sample_globals sample_request
                       MAX_EXERCISES 1 (solve_init sample_request))).
Proof.
  refine (selected_mask_exact insertion_sort sample_globals sample_request MAX_EXERCISES
            1 1 insertion_sort_permutes _ _).
  - vm_compute. discriminate.
  - lia.
Defined.

(** ** Loading the catalog *)

Lemma forallb_has_properties (l : list js_value) :
  forallb has_properties l = false -> Exists (fun elem => to_object elem = None) l.
Proof.
  induction l as [|elem l IH]; simpl; [discriminate|].
  unfold has_properties at 1. destruct (to_object elem) eqn:Hobj; simpl.
  - intros Hl. apply Exists_cons_tl, IH, Hl.
  - intros _. now apply Exists_cons_hd.
Qed.

(** X8.  A call of [InitExercises] throws in three cases.  Without an
    argument, or with an argument that is not an array, it leaves the
    catalog, its count and the flag as they were.  With an array in
    which an element that it reads has no properties, it throws the
    pending error after it has set the count and the flag as a
    successful load does. *)
Theorem InitExercises_throws
    (g : Globals) (args : list js_value) (msg : string) :
  snd (InitExercises g args) = inl msg ->
  (given_array args = false /\ fst (InitExercises g args) = g /\
   ((args = [] /\ msg = ERR_EXPECTED_EXERCISES) \/
    (args <> [] /\ msg = ERR_EXPECTED_ARRAY))) \/
  (given_array args = true /\ msg = ERR_TO_OBJECT /\
   Exists (fun elem => to_object elem = None)
     (take (Z.to_nat MAX_EXERCISES) (load_records args)) /\
   g_initialized (fst (InitExercises g args)) = 1 /\
   g_exercise_count (fst (InitExercises g args))
   = Z.min (Z.of_nat (length (load_records args))) MAX_EXERCISES).
Proof.
  destruct args as [|arg rest]; simpl.
  - intros [= <-]. left. split; [reflexivity|]. split; [reflexivity|]. now left.
  - destruct (napi_is_array arg) eqn:Harr; simpl.
    + destruct (forallb has_properties _) eqn:Hall; [discriminate|].
      intros [= <-]. right. split; [reflexivity|]. split; [reflexivity|].
      split; [apply forallb_has_properties, Hall|]. split; [reflexivity|].
      rewrite length_map, length_take. unfold MAX_EXERCISES. lia.
    + intros [= <-]. left. split; [reflexivity|]. split; [reflexivity|].
      right. split; [discriminate|reflexivity].
Qed.

Lemma InitExercises_throws_witness :
  g_initialized (fst (InitExercises initial_globals [JsArray [JsUndefined]])) = 1 /\
  g_exercise_count (fst (InitExercises initial_globals [JsArray [JsUndefined]])) = 1.
Proof.
  destruct (InitExercises_throws initial_globals [JsArray [JsUndefined]] ERR_TO_OBJECT)
    as [(Hgiven & _)|(_ & _ & _ & Hflag & Hcount)].
  - reflexivity.
  - discriminate Hgiven.
  - split; [exact Hflag|exact Hcount].
Defined.

Lemma exercise_at_lookup g i ex :
  g_exercises g !! i = Some ex -> exercise_at g (Z.of_nat i) = ex.
Proof.
  intros Hi. unfold exercise_at. destruct (Z.ltb_spec (Z.of_nat i) 0); [lia|].
  now rewrite Nat2Z.id, Hi.
Qed.

Lemma typed_records_have_properties (l : list js_value) :
  forallb typed_record l = true -> forallb has_properties l = true.
Proof.
  induction l as [|elem l IH]; simpl; [reflexivity|].
  unfold typed_record at 1, has_properties at 1.
  destruct (to_object elem); [|discriminate].
  intros Hl. apply andb_true_iff in Hl as [_ Hl]. now apply IH.
Qed.

(** X9.  A call of [InitExercises] with an array of well-typed records
    (each has properties, a boolean [isCompound] and numbers in
    [activations]) returns their number, at most [MAX_EXERCISES]; this
    is the new count, the flag is set, and entry [i] of the catalog is
    what [read_exercise] makes of the properties of record [i],
    whatever the catalog held before. *)
Theorem InitExercises_round_trip
    (g : Globals) (records rest : list js_value) :
  forallb typed_record (take (Z.to_nat MAX_EXERCISES) records) = true ->
  let loaded := fst (InitExercises g (JsArray records :: rest)) in
  let n := Z.min (Z.of_nat (length records)) MAX_EXERCISES in
  snd (InitExercises g (JsArray records :: rest)) = inr n /\
  g_exercise_count loaded = n /\
  g_initialized loaded = 1 /\
  forall i elem props,
    Z.of_nat i < n -> records !! i = Some elem -> to_object elem = Some props ->
    exercise_at loaded (Z.of_nat i) = read_exercise props.
Proof.
  intros Htyped loaded n. unfold loaded, n. simpl.
  rewrite (typed_records_have_properties _ Htyped).
  rewrite length_map, length_take.
  assert (Hn : Z.of_nat (Z.to_nat MAX_EXERCISES `min` length records)
               = Z.min (Z.of_nat (length records)) MAX_EXERCISES)
    by (unfold MAX_EXERCISES; lia).
  rewrite Hn. repeat split.
  intros i elem props Hi Helem Hprops. apply exercise_at_lookup. simpl.
  unfold MAX_EXERCISES in *.
  rewrite lookup_app_l by (rewrite length_map, length_take; lia).
  rewrite list_lookup_fmap, lookup_take_lt by lia. rewrite Helem. simpl.
  unfold read_record. now rewrite Hprops.
Qed.

Lemma InitExercises_round_trip_witness :
  exercise_at (fst (InitExercises initial_globals [JsArray [push_up_record; cable_curl_record]])) 0
  = read_exercise push_up_props.
Proof.
  refine (proj2 (proj2 (proj2
            (InitExercises_round_trip initial_globals [push_up_record; cable_curl_record] []
               _))) 0%nat push_up_record push_up_props _ _ _);
    vm_compute; reflexivity.
Defined.

Lemma to_int32_range d : in_range (to_int32 d).
Proof.
  unfold to_int32. destruct (truncate d); [apply wrap32_range|].
  unfold in_range, INT_MIN, INT_MAX. lia.
Qed.

Lemma int32_property_range props name : in_range (int32_property props name).
Proof.
  unfold int32_property, napi_get_value_int32.
  destruct (napi_get_named_property props name);
    try apply to_int32_range; unfold in_range, INT_MIN, INT_MAX; lia.
Qed.






Lemma read_excluded_length props : length (read_excluded props) = 16%nat.
Proof.
  unfold read_excluded.
  destruct (napi_is_array (napi_get_named_property props "excludedExercisesMask")).
  - rewrite length_app, length_replicate, length_map, length_take. lia.
  - reflexivity.
Qed.

Lemma wf_read_request (props : gmap string js_value) : wf_request (read_request props).
Proof.
  unfold wf_request, read_request; cbn [time_available_seconds location equipment_mask
    goals_mask fitness_level excluded_exercises_mask excluded_muscles_mask
    recent_24h_muscles_mask recent_48h_muscles_mask].
  repeat split; try apply int32_property_range; try apply read_excluded_length.
  unfold read_excluded. apply Forall_app. split.
  - destruct (napi_is_array _); [|constructor].
    apply Forall_map, Forall_true. intros v. unfold napi_get_value_int32.
    destruct v; try apply to_int32_range; unfold in_range, INT_MIN, INT_MAX; lia.
  - apply Forall_in_range_zeros.
Qed.

(** ** The calls of [Solve], [ScoreBatch] and [GetExerciseCount] *)

(** X12.  [Solve] reads at most 16 words of [excludedExercisesMask]:
    cutting the array after its 16th element changes nothing. *)
Theorem Solve_ignores_words_after_16
    (qsort : (ScoredExercise -> ScoredExercise -> Z)
             -> list ScoredExercise -> list ScoredExercise)
    (g : Globals) (props : gmap string js_value) (words rest : list js_value) :
  Solve qsort g (JsObject (<["excludedExercisesMask" := JsArray words]> props) :: rest)
  = Solve qsort g
      (JsObject (<["excludedExercisesMask" := JsArray (take 16 words)]> props) :: rest).
Proof.
  unfold Solve. destruct (_ || _); [reflexivity|]. do 2 f_equal.
  unfold read_request, read_excluded, int32_property, napi_get_named_property.
  rewrite !lookup_insert_eq, !lookup_insert_ne by discriminate. simpl.
  rewrite take_take, Nat.min_id. reflexivity.
Qed.

(** X13.  With a catalog loaded, a request object whose
    [timeAvailableSeconds] is missing or not a number is solved as a
    request of 0 seconds: [Solve] returns the empty array and throws
    nothing. *)
Theorem Solve_without_time
    (qsort : (ScoredExercise -> ScoredExercise -> Z)
             -> list ScoredExercise -> list ScoredExercise)
    (g : Globals) (props : gmap string js_value) (rest : list js_value) :
  g_initialized g <> 0 -> g_exercise_count g <> 0 ->
  (forall d, props !! "timeAvailableSeconds" <> Some (JsNumber d)) ->
  Solve qsort g (JsObject props :: rest) = inr [].
Proof.
  intros Hinit Hcount Htime. unfold Solve.
  destruct (Z.eqb_spec (g_initialized g) 0); [contradiction|].
  destruct (Z.eqb_spec (g_exercise_count g) 0); [contradiction|]. simpl. f_equal.
  assert (Hzero : time_available_seconds (read_request props) = 0).
  { unfold read_request, int32_property, napi_get_named_property; simpl.
    destruct (props !! "timeAvailableSeconds") as [[| | d | |]|] eqn:Hp;
      try reflexivity. exfalso. now apply (Htime d). }
  rewrite solve_entries, small_budget_final; [reflexivity| |].
  - rewrite Hzero. unfold INT_MAX. lia.
  - rewrite Hzero. unfold warmup_cooldown. rewrite Hzero. simpl. lia.
Qed.

Lemma Solve_without_time_witness :
  Solve insertion_sort sample_globals [JsObject {[ "location" := js_int 1 ]}] = inr [].
Proof.
  refine (Solve_without_time insertion_sort sample_globals _ [] _ _ _).
  - vm_compute. discriminate.
  - vm_compute. discriminate.
  - intros d. rewrite lookup_singleton_ne; discriminate.
Defined.

(** X14.  After any sequence of [InitExercises] calls,
    [GetExerciseCount] returns the number of elements of the last
    array that a call was given, capped at [MAX_EXERCISES], whether
    that call returned or threw for one of the elements, and 0 when no
    call has been given an array: a load replaces the catalog and does
    not add to it. *)
Theorem GetExerciseCount_last_load (calls : list (list js_value)) :
  GetExerciseCount (after_loads calls)
  = match last_given calls with
    | Some args => Z.min (Z.of_nat (length (load_records args))) MAX_EXERCISES
    | None => 0
    end.
Proof.
  unfold GetExerciseCount. pose proof (after_loads_state calls) as Hstate.
  destruct (last_given calls) as [args|] eqn:Hlast.
  - destruct Hstate as [_ ->]. rewrite length_take. unfold MAX_EXERCISES. lia.
  - apply Hstate.
Qed.

(** X15.  [ScoreBatch] reads four properties of the request object:
    two objects that agree on [goalsMask], [fitnessLevel],
    [recent24hMusclesMask] and [recent48hMusclesMask] get the same
    answer, whatever their other properties are. *)
Theorem ScoreBatch_reads_four_properties
    (g : Globals) (indices : list Z) (p1 p2 : gmap string js_value) :
  p1 !! "goalsMask" = p2 !! "goalsMask" ->
  p1 !! "fitnessLevel" = p2 !! "fitnessLevel" ->
  p1 !! "recent24hMusclesMask" = p2 !! "recent24hMusclesMask" ->
  p1 !! "recent48hMusclesMask" = p2 !! "recent48hMusclesMask" ->
  ScoreBatch g indices (JsObject p1) = ScoreBatch g indices (JsObject p2).
Proof.
  intros Hg Hf H24 H48. unfold ScoreBatch. cbn [to_object].
  unfold read_score_request, int32_property, napi_get_named_property.
  now rewrite Hg, Hf, H24, H48.
Qed.

Lemma ScoreBatch_reads_four_properties_witness :
  ScoreBatch sample_globals [0; 1] (JsObject sample_object)
  = ScoreBatch sample_globals [0; 1]
      (JsObject (<["location" := js_int 5]> (<["weights" := sample_weights]> sample_object))).
Proof.
  refine (ScoreBatch_reads_four_properties sample_globals [0; 1] sample_object _ _ _ _ _);
    now rewrite !lookup_insert_ne by discriminate.
Defined.

(** X16.  With a catalog loaded, the score that [ScoreBatch] returns
    for an index is the score that the first round of [Solve] gives
    the same exercise for the same request, read from the properties
    of the same argument. *)
Theorem ScoreBatch_matches_first_round
    (g : Globals) (object : js_value) (props : gmap string js_value)
    (se : ScoredExercise) :
  g_initialized g <> 0 ->
  to_object object = Some props ->
  In se (score_remaining g (read_request props) (solve_init (read_request props))) ->
  ScoreBatch g [index se] object = inr [score se].
Proof.
  intros Hinit Hprops Hse. unfold ScoreBatch.
  destruct (Z.eqb_spec (g_initialized g) 0); [contradiction|]. rewrite Hprops.
  unfold score_remaining in Hse. apply in_map_iff in Hse as (idx & <- & Hidx).
  apply filter_In in Hidx as [Hvalid _]. apply valid_indices_range in Hvalid.
  cbn [index score map coverage_mask solve_init]. unfold score_one.
  destruct (Z.leb_spec 0 idx); [|lia]. destruct (Z.ltb_spec idx (g_exercise_count g)); [|lia].
  cbn [andb].
  rewrite (score_exercise_fields (exercise_at g idx) (read_score_request props)
             (read_request props) 0) by reflexivity.
  reflexivity.
Qed.

Lemma ScoreBatch_matches_first_round_witness :
  ScoreBatch sample_globals [0] (JsObject sample_object)
  = inr [score_exercise push_up (read_request sample_object) 0].
Proof.
  refine (ScoreBatch_matches_first_round sample_globals (JsObject sample_object)
            sample_object
            {| index := 0;
               score := score_exercise push_up (read_request sample_object) 0 |}
            _ _ _).
  - vm_compute. discriminate.
  - reflexivity.
  - left. reflexivity.
Defined.

(** ** Scores and their comparison *)

Lemma fold_left_ext_in {A B} (f h : A -> B -> A) (l : list B) (a : A) :
  (forall x y, In y l -> f x y = h x y) -> fold_left f l a = fold_left h l a.
Proof.
  revert a. induction l as [|y l IH]; intros a Hfh; simpl; [reflexivity|].
  rewrite Hfh by now left. apply IH. intros x z Hz. apply Hfh. now right.
Qed.

(** X17.  The score depends on the coverage mask only through the
    muscles that the exercise activates: two masks that agree on the
    bit tested for every muscle with a positive activation (bit
    [m mod 32] for muscle [m]) give the same score. *)
Theorem score_exercise_coverage
    (ex : Exercise) (req : SolverRequest) (c1 c2 : Z) :
  (forall m, 0 <= m < MAX_MUSCLES -> fgt (activation ex m) zero = true ->
             has_bit c1 m = has_bit c2 m) ->
  score_exercise ex req c1 = score_exercise ex req c2.
Proof.
  intros Hagree. unfold score_exercise. apply fold_left_ext_in.
  intros sc m Hm. apply list_elem_of_In, elem_of_seqZ in Hm.
  unfold score_coverage. destruct (fgt (activation ex m) zero) eqn:Hact; [|reflexivity].
  rewrite (Hagree m) by (assumption || lia). reflexivity.
Qed.

Lemma score_exercise_coverage_witness :
  score_exercise push_up sample_request 0 = score_exercise push_up sample_request 4.
Proof.
  refine (score_exercise_coverage push_up sample_request 0 4 _).
  intros m Hm Hact.
  destruct (Z.eq_dec m 0) as [->|H0]; [reflexivity|].
  destruct (Z.eq_dec m 1) as [->|H1]; [reflexivity|].
  exfalso. unfold activation, push_up in Hact; cbn [activations] in Hact.
  rewrite activation_row_tail in Hact by (simpl; lia). discriminate.
Defined.

(** X18.  A fitness level outside 0..2 reads neither difficulty
    table: the score is then the same for every difficulty of the
    exercise. *)
Theorem score_exercise_no_level
    (ex : Exercise) (req : SolverRequest) (coverage d : Z) :
  ~ (0 <= fitness_level req <= 2) ->
  score_exercise (with_difficulty ex d) req coverage = score_exercise ex req coverage.
Proof.
  intros Hlevel. unfold score_exercise.
  assert (Hskip : (0 <=? fitness_level req) && (fitness_level req <=? 2) = false).
  { apply not_true_iff_false. rewrite andb_true_iff, !Z.leb_le. lia. }
  rewrite Hskip. reflexivity.
Qed.

Lemma score_exercise_no_level_witness :
  score_exercise (with_difficulty push_up 5) (read_request {[ "fitnessLevel" := js_int 7 ]}) 0
  = score_exercise push_up (read_request {[ "fitnessLevel" := js_int 7 ]}) 0.
Proof.
  refine (score_exercise_no_level push_up _ 0 5 _).
  vm_compute. intros [_ H]. apply H. reflexivity.
Defined.

(** X19.  The penalty for the last 24 hours takes precedence: for a
    muscle that the exercise activates and whose bit is set in the
    24-hour mask, the bit of the 48-hour mask does not matter to the
    score; the bit of muscle [m] in either mask is bit [m mod 32], as
    [has_bit] tests it. *)
Theorem score_exercise_recent_24h_first
    (ex : Exercise) (req : SolverRequest) (coverage mask : Z) :
  (forall m, 0 <= m < MAX_MUSCLES -> fgt (activation ex m) zero = true ->
             has_bit (recent_24h_muscles_mask req) m = false ->
             has_bit mask m = has_bit (recent_48h_muscles_mask req) m) ->
  score_exercise ex (with_recent_48h req mask) coverage = score_exercise ex req coverage.
Proof.
  intros Hagree. unfold score_exercise.
  cbn [goals_mask weights fitness_level with_recent_48h].
  rewrite (fold_left_ext (score_goal ex (with_recent_48h req mask)) (score_goal ex req))
    by reflexivity.
  rewrite (fold_left_ext_in (score_recovery ex (with_recent_48h req mask))
             (score_recovery ex req)).
  - rewrite (fold_left_ext (score_coverage ex (with_recent_48h req mask) coverage)
               (score_coverage ex req coverage)) by reflexivity.
    reflexivity.
  - intros sc m Hm. apply list_elem_of_In, elem_of_seqZ in Hm.
    unfold score_recovery. cbn [recent_24h_muscles_mask recent_48h_muscles_mask weights
      with_recent_48h].
    destruct (fgt (activation ex m) zero) eqn:Hact; [|reflexivity].
    destruct (has_bit (recent_24h_muscles_mask req) m) eqn:H24; [reflexivity|].
    rewrite (Hagree m) by (assumption || lia). reflexivity.
Qed.

Lemma score_exercise_recent_24h_first_witness :
  score_exercise push_up (with_recent_48h tired_request 3) 0
  = score_exercise push_up tired_request 0.
Proof.
  refine (score_exercise_recent_24h_first push_up tired_request 0 3 _).
  intros m Hm Hact H24. exfalso.
  destruct (Z.eq_dec m 0) as [->|H0]; [vm_compute in H24; discriminate|].
  destruct (Z.eq_dec m 1) as [->|H1]; [vm_compute in H24; discriminate|].
  unfold activation, push_up in Hact; cbn [activations] in Hact.
  rewrite activation_row_tail in Hact by (simpl; lia). discriminate.
Defined.

(** ** The comparator *)

Lemma binary_round_aux_opp s m e l :
  binary_round_aux prec emax (negb s) m e l = SFopp (binary_round_aux prec emax s m e l).
Proof.
  unfold binary_round_aux.
  destruct (shr_fexp prec emax m e l) as [mrs' e'].
  destruct (shr_fexp prec emax _ e' loc_Exact) as [mrs'' e''].
  destruct (shr_m mrs''); try reflexivity.
  destruct (e'' <=? emax - prec); reflexivity.
Qed.

Lemma binary_normalize_opp z e :
  z <> 0 ->
  binary_normalize prec emax (- z) e false = SFopp (binary_normalize prec emax z e false).
Proof.
  destruct z as [|p|p]; [congruence| |]; intros _; simpl; unfold binary_round;
    destruct (shl_align _ _ _) as [mz ez].
  - apply (binary_round_aux_opp false).
  - apply (binary_round_aux_opp true).
Qed.

(** A difference and the opposite difference lie on opposite sides of
    zero. *)
Lemma fsub_swap x y :
  fgt (fsub y x) zero = flt (fsub x y) zero /\
  flt (fsub y x) zero = fgt (fsub x y) zero.
Proof.
  assert (Hopp : forall d, fgt (SFopp d) zero = flt d zero /\ flt (SFopp d) zero = fgt d zero).
  { intros [s|s| |s m e]; try destruct s; split; reflexivity. }
  destruct x as [sx|sx| |sx mx ex], y as [sy|sy| |sy my ey];
    try (split; reflexivity);
    try (destruct sx, sy; split; reflexivity);
    try (destruct sx; split; reflexivity);
    try (destruct sy; split; reflexivity).
  unfold fsub, SFsub. rewrite (Z.min_comm ey ex).
  set (ez := Z.min ex ey).
  set (a := cond_Zopp sx (Z.pos (fst (shl_align mx ex ez)))).
  set (b := cond_Zopp sy (Z.pos (fst (shl_align my ey ez)))).
  destruct (Z.eq_dec (a - b) 0) as [Hz|Hnz].
  - replace (b - a) with 0 by lia. rewrite Hz. split; reflexivity.
  - replace (b - a) with (- (a - b)) by lia.
    rewrite binary_normalize_opp by assumption. apply Hopp.
Qed.

Lemma fgt_flt_exclusive d : fgt d zero = true -> flt d zero = false.
Proof.
  destruct d as [s|s| |s m e]; try destruct s; cbv; intros H;
    reflexivity || discriminate.
Qed.

(** X20.  The comparator is antisymmetric on all scores, NaN and the
    infinities included: exchanging the two entries negates the
    result, and an entry compares equal to itself. *)
Theorem compare_scores_antisym (a b : ScoredExercise) :
  compare_scores b a = - compare_scores a b /\ compare_scores a a = 0.
Proof.
  assert (Hswap : forall x y, compare_scores y x = - compare_scores x y).
  { intros x y. unfold compare_scores.
    destruct (fsub_swap (score y) (score x)) as [-> ->].
    destruct (fgt (fsub (score y) (score x)) zero) eqn:Hgt.
    - now rewrite (fgt_flt_exclusive _ Hgt).
    - destruct (flt (fsub (score y) (score x)) zero); reflexivity. }
  split; [apply Hswap|]. pose proof (Hswap a a). lia.
Qed.

Example sample_calls_load :
  exercise_at (after_loads sample_calls) 0 = push_up /\
  exercise_at (after_loads sample_calls) 1 = cable_curl /\
  g_exercise_count (after_loads sample_calls) = 2.
Proof. repeat split; vm_compute; reflexivity. Qed.

(** X21.  The rest multiplier comes from the first goal bit set in the
    order strength (1.5), endurance (0.5), fat loss (0.6f), mobility
    (0.75) and is 1 otherwise; the hypertrophy bit has no part in
    it. *)
Theorem rest_multiplier_precedence (req : SolverRequest) :
  exists q, to_Q (rest_multiplier_of req) = Some q /\
            (q == rest_multiplier_by_goal (goals_mask req))%Q.
Proof.
  unfold rest_multiplier_of, rest_multiplier_by_goal,
    GOAL_STRENGTH, GOAL_ENDURANCE, GOAL_FAT_LOSS, GOAL_MOBILITY.
  rewrite !has_bit_low by lia.
  destruct (Z.testbit (goals_mask req) 0); [eexists; split; reflexivity|].
  destruct (Z.testbit (goals_mask req) 2); [eexists; split; reflexivity|].
  destruct (Z.testbit (goals_mask req) 4); [eexists; split; reflexivity|].
  destruct (Z.testbit (goals_mask req) 3); eexists; split; reflexivity.
Qed.

(** X22.  A record whose [activations] hold numbers in the elements
    that are read is stored with exactly 50 activations: element [m]
    of the array converted to single precision for [m] below 50 and
    below the length of the array, and zero for every other muscle;
    elements from the 50th on are dropped. *)
Theorem read_exercise_activations
    (props : gmap string js_value) (vals : list js_value) (m : Z) :
  props !! "activations" = Some (JsArray vals) ->
  forallb is_number (take (Z.to_nat MAX_MUSCLES) vals) = true ->
  0 <= m ->
  activation (read_exercise props) m
  = match vals !! Z.to_nat m with
    | Some (JsNumber d) => if m <? MAX_MUSCLES then of_double d else zero
    | _ => zero
    end.
Proof.
  intros Hprops Hnum Hm. unfold activation, read_exercise; cbn [activations].
  unfold read_activations, activation_elements, napi_get_named_property.
  rewrite Hprops. simpl.
  set (row := map _ (take _ vals)).
  assert (Hrow : length row = (Z.to_nat MAX_MUSCLES `min` length vals)%nat)
    by (unfold row; now rewrite length_map, length_take).
  destruct (Z.ltb_spec m MAX_MUSCLES) as [Hlt|Hge].
  - destruct (vals !! Z.to_nat m) as [v|] eqn:Hv.
    + apply lookup_lt_Some in Hv as Hlen.
      rewrite lookup_app_l by lia. unfold row.
      rewrite list_lookup_fmap, lookup_take_lt by lia. rewrite Hv. simpl.
      rewrite forallb_forall in Hnum.
      assert (Hv' : is_number v = true).
      { apply Hnum, list_elem_of_In.
        apply (list_elem_of_lookup_2 _ (Z.to_nat m)).
        rewrite lookup_take_lt by lia. exact Hv. }
      destruct v; try discriminate. reflexivity.
    + apply lookup_ge_None in Hv. rewrite lookup_app_r by lia.
      destruct (replicate _ zero !! _) as [x|] eqn:Hx; [|reflexivity].
      now apply lookup_replicate in Hx as [-> _].
  - assert (Hnone : (row ++ replicate (Z.to_nat MAX_MUSCLES - length row) zero)
                      !! Z.to_nat m = None).
    { apply lookup_ge_None. rewrite length_app, length_replicate. lia. }
    rewrite Hnone. simpl. destruct (vals !! Z.to_nat m) as [[]|]; reflexivity.
Qed.

Lemma read_exercise_activations_witness :
  activation (read_exercise push_up_props) 1 = of_int 40.
Proof.
  unfold push_up_props.
  rewrite (read_exercise_activations _ [js_int 80; js_int 40] 1);
    [reflexivity|reflexivity|reflexivity|lia].
Defined.

(** ** Entries of the array above the count *)

Lemma find_ext_in {A} (f h : A -> bool) (l : list A) :
  (forall x, In x l -> f x = h x) -> List.find f l = List.find h l.
Proof.
  induction l as [|y l IH]; intros Hfh; simpl; [reflexivity|].
  rewrite <- (Hfh y) by now left. destruct (f y); [reflexivity|].
  apply IH. intros x Hx. apply Hfh. now right.
Qed.

Section SameCatalog.

Variable qsort :
  (ScoredExercise -> ScoredExercise -> Z) -> list ScoredExercise -> list ScoredExercise.
Hypothesis qsort_permutes : forall cmp l, Permutation (qsort cmp l) l.
Variables g1 g2 : Globals.
Variable req : SolverRequest.
Variable max_results : Z.
Hypothesis catalogs_agree : same_catalog g1 g2.

Lemma valid_indices_same : valid_indices g1 req = valid_indices g2 req.
Proof.
  destruct catalogs_agree as [Hcount Hsame]. unfold valid_indices. rewrite <- Hcount.
  apply List.filter_ext_in. intros idx Hidx.
  apply list_elem_of_In, elem_of_seqZ in Hidx. rewrite Hsame by lia. reflexivity.
Qed.

Lemma valid_exercise_same idx :
  In idx (valid_indices g1 req) -> exercise_at g1 idx = exercise_at g2 idx.
Proof.
  intros Hidx. apply valid_indices_range in Hidx. now apply catalogs_agree.
Qed.

Lemma score_remaining_same s : score_remaining g1 req s = score_remaining g2 req s.
Proof.
  unfold score_remaining. rewrite <- valid_indices_same.
  apply map_ext_in. intros idx Hidx. apply filter_In in Hidx as [Hidx _].
  now rewrite valid_exercise_same.
Qed.

Lemma solve_round_same s : solve_round qsort g1 req s = solve_round qsort g2 req s.
Proof.
  unfold solve_round. rewrite <- score_remaining_same.
  destruct (Z.of_nat (length (score_remaining g1 req s)) =? 0); [reflexivity|].
  assert (Hvalid : forall se, In se (qsort compare_scores (score_remaining g1 req s)) ->
                              exercise_at g1 (index se) = exercise_at g2 (index se)).
  { intros se Hse. apply valid_exercise_same.
    now apply (sorted_index qsort qsort_permutes) in Hse as [Hse _]. }
  rewrite (find_ext_in _ (fun se => time_needed g2 req (index se) <=? time_remaining s))
    by (intros se Hse; unfold time_needed; now rewrite (Hvalid se Hse)).
  destruct (List.find _ _) as [se|] eqn:Hfind; [|reflexivity].
  apply find_some in Hfind as [Hse _].
  unfold select, time_needed. now rewrite (Hvalid se Hse).
Qed.

Lemma solve_loop_same rounds s :
  solve_loop qsort g1 req max_results rounds s = solve_loop qsort g2 req max_results rounds s.
Proof.
  revert s. induction rounds as [|rounds IH]; intros s; simpl; [reflexivity|].
  rewrite solve_round_same. destruct (loop_guard max_results s); [|reflexivity].
  destruct (solve_round qsort g2 req s); [apply IH|reflexivity].
Qed.

End SameCatalog.

(** X24.  When [qsort] permutes its array, [solve] reads no entry of
    the array at or above the count: two catalogs with the same
    count and the same entries below it give the same output, so what
    an earlier, longer load has left behind has no effect. *)
Theorem solve_reads_below_count
    (qsort : (ScoredExercise -> ScoredExercise -> Z)
             -> list ScoredExercise -> list ScoredExercise)
    (g1 g2 : Globals) (req : SolverRequest) (max_results : Z) :
  (forall cmp l, Permutation (qsort cmp l) l) ->
  same_catalog g1 g2 ->
  solve qsort g1 req max_results = solve qsort g2 req max_results.
Proof.
  intros Hperm Hsame. unfold solve, solve_final.
  rewrite (valid_indices_same g1 g2 req Hsame), (proj1 Hsame).
  destruct (g_exercise_count g2 =? 0); [reflexivity|].
  destruct (Z.of_nat (length (valid_indices g2 req)) =? 0); [reflexivity|].
  now rewrite (solve_loop_same qsort Hperm g1 g2 req max_results Hsame).
Qed.

Lemma solve_reads_below_count_witness :
  solve insertion_sort
    (fst (InitExercises (after_loads sample_calls) [JsArray [push_up_record]]))
    sample_request MAX_EXERCISES
  = solve insertion_sort (after_loads [[JsArray [push_up_record]]])
      sample_request MAX_EXERCISES.
Proof.
  refine (solve_reads_below_count insertion_sort _ _ sample_request MAX_EXERCISES
            insertion_sort_permutes _).
  split; [reflexivity|].
  intros idx Hidx. replace idx with 0 by (simpl in Hidx; lia). reflexivity.
Defined.

Example stale_entry_kept :
  exercise_at (fst (InitExercises (after_loads sample_calls) [JsArray [push_up_record]])) 1
  = cable_curl.
Proof. vm_compute. reflexivity. Qed.

(** ** From the request to the answer *)

Lemma wf_cable_curl : wf_exercise cable_curl.
Proof.
  unfold wf_exercise, in_range; repeat split; (vm_compute; discriminate).
Qed.

(** X23.  For a catalog within its capacity whose exercises have the
    C types and ids above -32, so that every lookup stays in the
    array: when [qsort] permutes its array and [Solve] returns, its
    argument has properties, and every entry names an exercise of the
    catalog that meets the tests of the filter for the request read
    from them, the location and the muscle indices taken modulo 32 as
    the shifts take them; the indices are distinct and there are no
    more of them than the catalog holds. *)
Theorem Solve_returns_eligible
    (qsort : (ScoredExercise -> ScoredExercise -> Z)
             -> list ScoredExercise -> list ScoredExercise)
    (g : Globals) (object : js_value) (rest : list js_value)
    (out : list (Z * Z * Z)) :
  (forall cmp l, Permutation (qsort cmp l) l) ->
  0 <= g_exercise_count g <= MAX_EXERCISES ->
  (forall idx, 0 <= idx < g_exercise_count g ->
     wf_exercise (exercise_at g idx) /\ -32 < id (exercise_at g idx)) ->
  Solve qsort g (object :: rest) = inr out ->
  exists props,
    to_object object = Some props /\
    Forall (fun e =>
              0 <= fst (fst e) < GetExerciseCount g /\
              filter_tests not_above_forty
                (exercise_at g (fst (fst e))) (read_request props))
           out /\
    NoDup (map (fun e => fst (fst e)) out) /\
    Z.of_nat (length out) <= GetExerciseCount g.
Proof.
  intros Hperm Hcap Hcat. unfold Solve, GetExerciseCount.
  destruct (_ || _); [discriminate|].
  destruct (to_object object) as [props|]; [|discriminate]. intros [= <-].
  exists props. split; [reflexivity|].
  set (req := read_request props).
  pose proof (outputs_valid_final qsort Hperm g req MAX_EXERCISES) as Hvalid.
  destruct (selection_ok_final qsort Hperm g req MAX_EXERCISES (proj2 Hcap))
    as (_ & Hnodup & _).
  rewrite solve_entries, map_map, length_map. simpl. rewrite map_id.
  split; [|split; [assumption|]].
  - rewrite Forall_map. eapply Forall_impl; [exact Hvalid|].
    intros idx Hidx. simpl. apply valid_indices_spec in Hidx as [Hr Hpass].
    split; [assumption|]. destruct (Hcat idx Hr) as [Hwf Hid].
    apply passes_hard_filters_tests; [assumption|apply wf_read_request|assumption|assumption].
  - assert (Hle : (length (out_indices (solve_final qsort g req MAX_EXERCISES))
                   <= length (valid_indices g req))%nat).
    { apply submseteq_length, NoDup_submseteq; [assumption|].
      intros idx Hidx. apply list_elem_of_In.
      rewrite Forall_forall in Hvalid. now apply Hvalid. }
    unfold valid_indices in Hle.
    pose proof (filter_length_le
                  (fun i => passes_hard_filters (exercise_at g i) req)
                  (seqZ 0 (g_exercise_count g))) as Hf.
    rewrite length_seqZ in Hf. lia.
Qed.

Lemma Solve_returns_eligible_witness :
  exists props,
    to_object (JsObject sample_object) = Some props /\
    Forall (fun e =>
              0 <= fst (fst e) < GetExerciseCount sample_globals /\
              filter_tests not_above_forty
                (exercise_at sample_globals (fst (fst e))) (read_request props))
           [(0, 4, 10)] /\
    NoDup (map (fun e => fst (fst e)) [(0, 4, 10)]) /\
    Z.of_nat (length [(0, 4, 10)]) <= GetExerciseCount sample_globals.
Proof.
  refine (Solve_returns_eligible insertion_sort sample_globals
            (JsObject sample_object) [] [(0, 4, 10)] insertion_sort_permutes _ _ _).
  - vm_compute. split; discriminate.
  - intros idx Hidx. change (g_exercise_count sample_globals) with 2 in Hidx.
    destruct (Z.eq_dec idx 0) as [->|Hne].
    + split; [exact wf_push_up|vm_compute; reflexivity].
    + replace idx with 1 by lia. split; [exact wf_cable_curl|vm_compute; reflexivity].
  - vm_compute. reflexivity.
Defined.
